(** * msvcfilt: a shallow embedding of [msvcfilt.cpp]

    The program reads lines (from the command line or from standard
    input), finds substrings that look like MSVC decorated names with
    the regular expression [\?[a-zA-Z0-9_@?$]+], asks DbgHelp to
    undecorate each of them and writes the rewritten line to standard
    output.

    A [std::string] is a sequence of bytes and may hold NUL bytes; it is
    modelled as [list ascii].  Iterators into a string are offsets.
    The globals, the two standard streams and the [SymbolHandler]
    singleton form a [World] that the functions thread through a small
    state monad.  DbgHelp is a parameter ([Platform]). *)

From Stdlib Require Import Ascii String Bool Arith Lia NArith ZArith List.
Import ListNotations.

Set Implicit Arguments.

(** ** Byte strings *)

Module Bytes.

Definition str (s : string) : list ascii := list_ascii_of_string s.

Definition NUL : ascii := Ascii.zero.
Definition LF : ascii := "010"%char.

(** A [char*] read as a C string: the bytes before the first NUL. *)
Fixpoint c_str (s : list ascii) : list ascii :=
  match s with
  | [] => []
  | c :: rest => if Ascii.eqb c NUL then [] else c :: c_str rest
  end.

(** [std::string_view(first, last)] over the string [s], the iterators
    being offsets with [first <= last <= length s]. *)
Definition string_view (s : list ascii) (first last : nat) : list ascii :=
  firstn (last - first) (skipn first s).

(** [strcmp(a, b) == 0] *)
Definition streq (a b : list ascii) : bool :=
  if list_eq_dec ascii_dec a b then true else false.

End Bytes.
Import Bytes.

(** ** The regular expression

    [std::regex] is library code; what the program relies on is the
    ECMAScript meaning of the pattern [\?[a-zA-Z0-9_@?$]+] and the
    leftmost, greedy search of [std::regex_search]. *)

Module Regex.

Inductive regex : Type :=
| Chr (c : ascii)
| Class (p : ascii -> bool)
| Cat (r1 r2 : regex)
| Plus (r : regex).

Inductive Matches : regex -> list ascii -> Prop :=
| MChr c : Matches (Chr c) [c]
| MClass (p : ascii -> bool) c : p c = true -> Matches (Class p) [c]
| MCat r1 r2 s1 s2 :
    Matches r1 s1 -> Matches r2 s2 -> Matches (Cat r1 r2) (s1 ++ s2)
| MPlus1 r s : Matches r s -> Matches (Plus r) s
| MPlusS r s1 s2 :
    Matches r s1 -> Matches (Plus r) s2 -> Matches (Plus r) (s1 ++ s2).

Definition in_range (lo hi c : ascii) : bool :=
  (Ascii.leb lo c && Ascii.leb c hi)%bool.

(** The bracket expression [[a-zA-Z0-9_@?$]]. *)
Definition is_sym_char (c : ascii) : bool :=
  (in_range "a" "z" c || in_range "A" "Z" c || in_range "0" "9" c
   || Ascii.eqb c "_" || Ascii.eqb c "@" || Ascii.eqb c "?"
   || Ascii.eqb c "$")%bool%char.

Definition is_qmark (c : ascii) : bool := Ascii.eqb c "?"%char.

Definition DECORATED_SYMBOL_PATTERN : regex :=
  Cat (Chr "?"%char) (Plus (Class is_sym_char)).

(** Length of the longest prefix of [s] made of class characters: what
    the greedy [+] consumes. *)
Fixpoint run_length (s : list ascii) : nat :=
  match s with
  | [] => 0
  | c :: rest => if is_sym_char c then S (run_length rest) else 0
  end.

(** [std::regex_search] for the pattern over the range that starts at
    offset [off] and whose bytes are [s]: the leftmost position where a
    match starts, extended greedily.  The result is the pair
    ([first], [second]) of the sub_match, as offsets. *)
Fixpoint regex_search (s : list ascii) (off : nat) : option (nat * nat) :=
  match s with
  | [] => None
  | c :: rest =>
      if (is_qmark c && (0 <? run_length rest))%bool
      then Some (off, S (off + run_length rest))
      else regex_search rest (S off)
  end.

(** The sequence a [std::sregex_token_iterator] (sub-match 0) walks
    through: every match is non-empty, so each increment searches again
    from the end of the previous match.  [fuel] bounds the number of
    matches; [length line] is always enough
    (see [sregex_tokens_fuel]). *)
Fixpoint sregex_tokens (fuel : nat) (line : list ascii) (pos : nat)
  : list (nat * nat) :=
  match fuel with
  | 0 => []
  | S fuel' =>
      match regex_search (skipn pos line) pos with
      | None => []
      | Some (first, second) =>
          (first, second) :: sregex_tokens fuel' line second
      end
  end.

Definition sregex_token_iterator (line : list ascii) : list (nat * nat) :=
  sregex_tokens (length line) line 0.

End Regex.
Import Regex.

(** ** Standard input

    [std::cin] as the bytes not yet extracted and the three state
    bits of [std::ios_base]. *)

Module IStream.

Record istream : Type := mk_istream {
  buf : list ascii;
  eofbit : bool;
  failbit : bool;
  badbit : bool
}.

(** [std::ios::good()]: no state bit is set. *)
Definition good (s : istream) : bool :=
  (negb (eofbit s) && negb (failbit s) && negb (badbit s))%bool.

(** The bytes before the first line feed, and what follows it
    ([None] when the end of the data comes first). *)
Fixpoint read_line (s : list ascii) : list ascii * option (list ascii) :=
  match s with
  | [] => ([], None)
  | c :: rest =>
      if Ascii.eqb c LF then ([], Some rest)
      else let (l, r) := read_line rest in (c :: l, r)
  end.

(** [std::getline(is, line)].  When the sentry fails (the stream is not
    good) it sets failbit and leaves [line] alone.  Otherwise [line] is
    erased and bytes are extracted up to a line feed (extracted, not
    stored) or the end of the data (eofbit); failbit is set when
    nothing at all was extracted. *)
Definition getline (s : istream) (line : list ascii)
  : istream * list ascii :=
  if good s then
    match read_line (buf s) with
    | (l, Some rest) =>
        (mk_istream rest (eofbit s) (failbit s) (badbit s), l)
    | (l, None) =>
        (mk_istream [] true
           (match l with [] => true | _ :: _ => failbit s end)
           (badbit s), l)
    end
  else (mk_istream (buf s) (eofbit s) true (badbit s), line).

End IStream.
Import IStream.

(** ** DbgHelp and the process state *)

(** What the program takes from [DbgHelp.h]: the constant
    [MAX_SYM_NAME], the outcome of [SymInitialize] for the current
    process, and [UnDecorateSymbolName], which for a name and a buffer
    length gives the DWORD it returns (0 on failure) and the bytes of
    the output buffer after the call. *)
Record Platform : Type := {
  MAX_SYM_NAME : nat;
  SymInitialize : bool;
  UnDecorateSymbolName : list ascii -> nat -> N * list ascii
}.

(** What the process does to the outside, in order. *)
Inductive Event : Type :=
| EvCinGood
| EvCinGetline
| EvSymInitialize
| EvSymCleanup
| EvUnDecorateSymbolName (name : list ascii).

(** A HANDLE is an integer; 0 is [nullptr] and -1 the pseudo handle
    that [GetCurrentProcess] returns. *)
Definition HANDLE : Type := Z.
Definition GetCurrentProcess : HANDLE := (-1)%Z.

Record SymbolHandler : Type := mk_SymbolHandler {
  fProc : HANDLE;
  fUndecoratedBuffer : list ascii
}.

(** The globals of the program, its standard streams, the
    function-local static of [GetInstance] ([None] until it is
    constructed) and the trace.  [std::cout] is taken to accept every
    write: [cout] holds the bytes written so far. *)
Record World : Type := mk_World {
  gKeepOldName : bool;
  gInputStrings : option (list (list ascii));
  cin : istream;
  cout : list ascii;
  instance : option SymbolHandler;
  trace : list Event
}.

(** The state of a process when [main] is entered: the globals hold
    their initialisers and the singleton is not constructed yet. *)
Definition start (stdin : list ascii) : World :=
  mk_World false None (mk_istream stdin false false false) [] None [].

(** ** The state monad *)

Definition M (A : Type) : Type := World -> A * World.

Definition ret {A : Type} (a : A) : M A := fun w => (a, w).

Definition bind {A B : Type} (m : M A) (k : A -> M B) : M B :=
  fun w => let (a, w') := m w in k a w'.

Declare Scope m_scope.
Delimit Scope m_scope with M.
Notation "x <- m ;; k" := (bind m (fun x => k))
  (at level 61, m at next level, right associativity) : m_scope.
Notation "m ;; k" := (bind m (fun _ => k))
  (at level 61, right associativity) : m_scope.
Local Open Scope m_scope.

Definition log (e : Event) : M unit := fun w =>
  (tt, mk_World (gKeepOldName w) (gInputStrings w) (cin w) (cout w)
         (instance w) (trace w ++ [e])).

(** [std::cout << s] for a [std::string] or [std::string_view]. *)
Definition put (s : list ascii) : M unit := fun w =>
  (tt, mk_World (gKeepOldName w) (gInputStrings w) (cin w) (cout w ++ s)
         (instance w) (trace w)).

(** [std::cout << std::endl] *)
Definition endl : M unit := put [LF].

Definition set_gKeepOldName (b : bool) : M unit := fun w =>
  (tt, mk_World b (gInputStrings w) (cin w) (cout w) (instance w) (trace w)).

Definition set_gInputStrings (q : option (list (list ascii))) : M unit :=
  fun w =>
  (tt, mk_World (gKeepOldName w) q (cin w) (cout w) (instance w) (trace w)).

Definition set_cin (s : istream) : M unit := fun w =>
  (tt, mk_World (gKeepOldName w) (gInputStrings w) s (cout w)
         (instance w) (trace w)).

Definition set_instance (h : SymbolHandler) : M unit := fun w =>
  (tt, mk_World (gKeepOldName w) (gInputStrings w) (cin w) (cout w)
         (Some h) (trace w)).

Definition get {A : Type} (f : World -> A) : M A := fun w => (f w, w).

(** ** [class SymbolHandler] *)

Module Handler.

Definition kMAX_SYMBOL_NAME_LEN (P : Platform) : nat := MAX_SYM_NAME P.

(** The constructor.  The buffer it allocates is not initialised and is
    never read before [UnDecorateSymbolName] has written to it; it
    starts out empty here. *)
Definition SymbolHandler_ctor (P : Platform) : M SymbolHandler :=
  log EvSymInitialize ;;
  ret (mk_SymbolHandler
         (if SymInitialize P then GetCurrentProcess else 0%Z) []).

(** The destructor. *)
Definition SymbolHandler_dtor (h : SymbolHandler) : M unit :=
  if (fProc h =? 0)%Z then ret tt else log EvSymCleanup.

(** [GetInstance]: the function-local static is constructed by the
    first call and returned as it is by the later ones. *)
Definition GetInstance (P : Platform) : M SymbolHandler := fun w =>
  match instance w with
  | Some h => (h, w)
  | None => (h <- SymbolHandler_ctor P ;; set_instance h ;; ret h) w
  end.

(** [UndecorateSymbol] on the singleton [h].  The name goes to DbgHelp
    as the C string of a copy of [symbol]; the result is the buffer
    read back as a C string. *)
Definition UndecorateSymbol (P : Platform) (h : SymbolHandler)
    (symbol : list ascii) : M (option (list ascii)) :=
  let name := c_str symbol in
  log (EvUnDecorateSymbolName name) ;;
  let (res, out) := UnDecorateSymbolName P name (kMAX_SYMBOL_NAME_LEN P) in
  set_instance (mk_SymbolHandler (fProc h) out) ;;
  let success := negb (res =? 0)%N in
  if success then ret (Some (c_str out)) else ret None.

(** [SymbolHandler::GetInstance().UndecorateSymbol( symbol )] *)
Definition resolve (P : Platform) (symbol : list ascii)
  : M (option (list ascii)) :=
  h <- GetInstance P ;; UndecorateSymbol P h symbol.

End Handler.
Import Handler.

(** ** Command line *)

Definition help_text : list (list ascii) :=
  [ str "Usage: msvcfilt [OPTIONS] <decorated string>...";
    str "Searches input stream for Microsoft Visual C++ decorated symbol names";
    str "and replaces them with their undecorated equivalent.";
    [];
    str "Options:";
    str "    -help, --help    Display this help and exit.";
    str "    -keep, --keep    Does not replace the original, decorated symbol name.";
    str "                     Instead, the undecorated name will be inserted after it.";
    str "    Uses STDIN rather than <decorated string> if not set" ].

(** Each line of the help text is followed by [std::endl]. *)
Definition help_output : list ascii :=
  concat (map (fun l => l ++ [LF]) help_text).

Arguments help_output : simpl never.

Definition showHelp : M unit := put help_output.

Definition is_help (arg : list ascii) : bool :=
  (streq (str "-help") arg || streq (str "--help") arg)%bool.

Definition is_keep (arg : list ascii) : bool :=
  (streq (str "-keep") arg || streq (str "--keep") arg)%bool.

(** The body of the [for] loop of [processArgs], over the arguments
    [argv[idx]], [argv[idx+1]], ... that are left. *)
Fixpoint processArgs_loop (args : list (list ascii)) : M bool :=
  match args with
  | [] => ret true
  | arg :: rest =>
      if is_help arg then
        showHelp ;; ret false
      else if is_keep arg then
        set_gKeepOldName true ;; processArgs_loop rest
      else
        q <- get gInputStrings ;;
        (match q with
         | None => set_gInputStrings (Some [])
         | Some _ => ret tt
         end) ;;
        q <- get gInputStrings ;;
        set_gInputStrings (Some (match q with
                                 | Some l => l ++ [arg]
                                 | None => [arg]
                                 end)) ;;
        processArgs_loop rest
  end.

(** [argv] holds the program name first; the loop starts at index 1. *)
Definition processArgs (argv : list (list ascii)) : M bool :=
  processArgs_loop (tl argv).

(** ** Input source *)

Definition inputValid : M bool :=
  q <- get gInputStrings ;;
  match q with
  | None => log EvCinGood ;; s <- get cin ;; ret (good s)
  | Some l => ret (negb (match l with [] => true | _ => false end))
  end.

Definition getNextLine : M (option (list ascii)) :=
  valid <- inputValid ;;
  if negb valid then ret None
  else
    let line := [] in
    q <- get gInputStrings ;;
    match q with
    | None =>
        log EvCinGetline ;;
        s <- get cin ;;
        let (s', line') := getline s line in
        set_cin s' ;; ret (Some line')
    | Some l =>
        match l with
        | front :: l' => set_gInputStrings (Some l') ;; ret (Some front)
        | [] => ret (Some line)
        end
    end.

(** ** The rewriter: the body of the [while] loop of [main] *)

Definition SPACE : ascii := " "%char.
Definition DQUOTE : ascii := "034"%char.

(** The [for] loop over the token iterator; it gives back the last
    [prevPos]. *)
Fixpoint for_each_token (P : Platform) (line : list ascii)
    (it : list (nat * nat)) (prevPos : nat) : M nat :=
  match it with
  | [] => ret prevPos
  | (startPos, endPos) :: it' =>
      put (string_view line prevPos startPos) ;;
      let prevPos := endPos in
      let symbol := string_view line startPos endPos in
      result <- resolve P symbol ;;
      match result with
      | None => for_each_token P line it' prevPos
      | Some undecorated =>
          keep <- get gKeepOldName ;;
          (if keep
           then put (string_view line startPos endPos) ;;
                put ([SPACE; DQUOTE] ++ undecorated ++ [DQUOTE])
           else put undecorated) ;;
          for_each_token P line it' prevPos
      end
  end.

Definition process_line (P : Platform) (line : list ascii) : M unit :=
  let it := sregex_token_iterator line in
  prevPos <- for_each_token P line it 0 ;;
  (if prevPos =? length line then ret tt
   else put (c_str (skipn prevPos line))) ;;
  endl.

(** ** [main] *)

(** The [while] loop.  The result tells whether the loop ended within
    [fuel] iterations; [loop_bound] iterations always do
    (see [main_loop_terminates]). *)
Fixpoint main_loop (P : Platform) (fuel : nat) : M bool :=
  match fuel with
  | 0 => ret false
  | S fuel' =>
      line <- getNextLine ;;
      match line with
      | None => ret true
      | Some l => process_line P l ;; main_loop P fuel'
      end
  end.

Definition loop_bound (w : World) : nat :=
  match gInputStrings w with
  | Some q => S (length q)
  | None => S (S (length (buf (cin w))))
  end.

(** [main]; [None] stands for a loop that did not end within [fuel]. *)
Definition main (P : Platform) (fuel : nat) (argv : list (list ascii))
  : M (option Z) :=
  ok <- processArgs argv ;;
  if negb ok then ret (Some 0%Z)
  else
    finished <- main_loop P fuel ;;
    if finished then ret (Some 0%Z) else ret None.

(** Destruction of the static objects when the process ends. *)
Definition at_exit : M unit :=
  i <- get instance ;;
  match i with
  | Some h => SymbolHandler_dtor h
  | None => ret tt
  end.

(** A whole run of the program on the given arguments and standard
    input: the exit code and the final state. *)
Definition run (P : Platform) (argv : list (list ascii))
    (stdin : list ascii) : option Z * World :=
  (let w0 := start stdin in
   (r <- main P (loop_bound (snd (processArgs argv w0))) argv ;;
    at_exit ;; ret r) w0).

(** ** A resolver to run the scenarios with *)

Definition demo_undecorate (name : list ascii) (len : nat)
  : N * list ascii :=
  if streq name (str "?foo@@YAXXZ")
  then (14%N, str "void foo(void)" ++ [NUL])
  else (0%N, []).

Definition demo_platform : Platform :=
  {| MAX_SYM_NAME := 2000;
     SymInitialize := true;
     UnDecorateSymbolName := demo_undecorate |}.

Definition failing_platform : Platform :=
  {| MAX_SYM_NAME := 2000;
     SymInitialize := true;
     UnDecorateSymbolName := fun _ _ => (0%N, []) |}.

Definition uninitialised_platform : Platform :=
  {| MAX_SYM_NAME := 2000;
     SymInitialize := false;
     UnDecorateSymbolName := demo_undecorate |}.

(** A DbgHelp that answers every name with the name itself. *)
Definition echo_platform : Platform :=
  {| MAX_SYM_NAME := 2000;
     SymInitialize := true;
     UnDecorateSymbolName :=
       fun name _ => (N.of_nat (length name), name ++ [NUL]) |}.

Definition stdout_of (r : option Z * World) : list ascii := cout (snd r).

(** ** Vocabulary of the statements *)

(** Where a match can start. *)
Definition starts_match (s : list ascii) : bool :=
  match s with
  | c :: rest => (is_qmark c && (0 <? run_length rest))%bool
  | [] => false
  end.

(** A line has no candidate when none of its substrings matches the
    pattern. *)
Definition no_candidate (line : list ascii) : Prop :=
  forall pre m suf,
    line = pre ++ m ++ suf -> ~ Matches DECORATED_SYMBOL_PATTERN m.

(** The tokens lie in the line from left to right, starting at
    [prevPos] at the earliest. *)
Fixpoint ordered (it : list (nat * nat)) (prevPos len : nat) : Prop :=
  match it with
  | [] => prevPos <= len
  | (startPos, endPos) :: it' =>
      prevPos <= startPos /\ startPos <= endPos /\ ordered it' endPos len
  end.

(** What the loop of [main] cuts out of the line: for each token the
    gap since the previous one and the text of the token. *)
Fixpoint pieces (line : list ascii) (it : list (nat * nat)) (prevPos : nat)
  : list (list ascii * list ascii) :=
  match it with
  | [] => []
  | (startPos, endPos) :: it' =>
      (string_view line prevPos startPos, string_view line startPos endPos)
        :: pieces line it' endPos
  end.

(** The end of the last token ([prevPos] when there is none). *)
Fixpoint last_pos (it : list (nat * nat)) (prevPos : nat) : nat :=
  match it with
  | [] => prevPos
  | (_, endPos) :: it' => last_pos it' endPos
  end.

(** The segment of the line after the last match. *)
Definition trailing (line : list ascii) : list ascii :=
  skipn (last_pos (sregex_token_iterator line) 0) line.

(** What DbgHelp answers for a candidate, as [UndecorateSymbol] reads
    it. *)
Definition resolves (P : Platform) (symbol : list ascii)
  : option (list ascii) :=
  let (res, out) :=
    UnDecorateSymbolName P (c_str symbol) (kMAX_SYMBOL_NAME_LEN P) in
  if (res =? 0)%N then None else Some (c_str out).

(** What is written for a match. *)
Definition emit (P : Platform) (keep : bool) (m : list ascii) : list ascii :=
  match resolves P m with
  | None => []
  | Some undecorated =>
      if keep then m ++ [SPACE; DQUOTE] ++ undecorated ++ [DQUOTE]
      else undecorated
  end.

(** What is written for a line. *)
Definition rewritten (P : Platform) (keep : bool) (line : list ascii)
  : list ascii :=
  concat (map (fun gm => fst gm ++ emit P keep (snd gm))
            (pieces line (sregex_token_iterator line) 0))
  ++ c_str (trailing line) ++ [LF].

(** The arguments before the first help flag, and the literal strings
    among some arguments. *)
Fixpoint before_help (args : list (list ascii)) : list (list ascii) :=
  match args with
  | [] => []
  | arg :: rest => if is_help arg then [] else arg :: before_help rest
  end.

Definition literals (args : list (list ascii)) : list (list ascii) :=
  filter (fun arg => negb (is_help arg || is_keep arg)) args.

(** The accesses to standard input, the calls of [SymInitialize] and
    the calls of [SymCleanup] in a trace. *)
Definition is_stdin_access (e : Event) : bool :=
  match e with
  | EvCinGood | EvCinGetline => true
  | _ => false
  end.

Definition stdin_accesses (tr : list Event) : list Event :=
  filter is_stdin_access tr.

Definition init_calls (tr : list Event) : nat :=
  length (filter (fun e => match e with EvSymInitialize => true
                                      | _ => false end) tr).

Definition cleanup_calls (tr : list Event) : nat :=
  length (filter (fun e => match e with EvSymCleanup => true
                                      | _ => false end) tr).

(** [n] calls of [getNextLine] in a row, and a [resolve] call for each
    of some candidates in turn. *)
Fixpoint next_lines (n : nat) : M (list (option (list ascii))) :=
  match n with
  | 0 => ret []
  | S n' => l <- getNextLine ;; ls <- next_lines n' ;; ret (l :: ls)
  end.

Fixpoint resolve_all (P : Platform) (symbols : list (list ascii))
  : M (list (option (list ascii))) :=
  match symbols with
  | [] => ret []
  | symbol :: rest =>
      r <- resolve P symbol ;; rs <- resolve_all P rest ;; ret (r :: rs)
  end.

(** [SymInitialize] has been called once if the singleton exists and
    not at all if it does not. *)
Definition singleton_ok (w : World) : Prop :=
  init_calls (trace w) = match instance w with Some _ => 1 | None => 0 end.

(** What rewriting a line leaves alone: the flags, the input source,
    the record of accesses to standard input and the discipline of
    the singleton. *)
Definition frame (w w' : World) : Prop :=
  gKeepOldName w' = gKeepOldName w /\
  gInputStrings w' = gInputStrings w /\
  cin w' = cin w /\
  stdin_accesses (trace w') = stdin_accesses (trace w) /\
  (singleton_ok w -> singleton_ok w').

(** The call of [UnDecorateSymbolName] a candidate gives rise to. *)
Definition undecorate_event (symbol : list ascii) : Event :=
  EvUnDecorateSymbolName (c_str symbol).

(** The same platform with another outcome of [SymInitialize]. *)
Definition with_SymInitialize (b : bool) (P : Platform) : Platform :=
  {| MAX_SYM_NAME := MAX_SYM_NAME P;
     SymInitialize := b;
     UnDecorateSymbolName := UnDecorateSymbolName P |}.

(** The number of lines the input source can still deliver. *)
Definition lines_left (w : World) : nat :=
  match gInputStrings w with
  | Some q => length q
  | None => if good (cin w) then S (length (buf (cin w))) else 0
  end.

(** The lines a stream of bytes is cut into at its line feeds: one
    more than it has line feeds, the last one being what follows the
    last line feed (empty when nothing does). *)
Fixpoint split_lines (s : list ascii) : list (list ascii) :=
  match s with
  | [] => [[]]
  | c :: rest =>
      if Ascii.eqb c LF then [] :: split_lines rest
      else match split_lines rest with
           | l :: ls => (c :: l) :: ls
           | [] => [[c]]
           end
  end.

(** Lines put together again, with a line feed between two of them. *)
Fixpoint join_lines (ls : list (list ascii)) : list ascii :=
  match ls with
  | [] => []
  | [l] => l
  | l :: ls' => l ++ LF :: join_lines ls'
  end.

(** The candidates of a line, from left to right. *)
Definition candidates (line : list ascii) : list (list ascii) :=
  map snd (pieces line (sregex_token_iterator line) 0).

(** The lines the input source has yet to hand out. *)
Definition pending_lines (w : World) : list (list ascii) :=
  match gInputStrings w with
  | Some q => q
  | None => if good (cin w) then split_lines (buf (cin w)) else []
  end.

(** The calls into DbgHelp in a trace. *)
Definition service_calls (tr : list Event) : list Event :=
  filter (fun e => negb (is_stdin_access e)) tr.

(** The handle the constructor of [SymbolHandler] stores. *)
Definition init_handle (P : Platform) : HANDLE :=
  if SymInitialize P then GetCurrentProcess else 0%Z.

(** The handle of the singleton ([None] before it is constructed), and
    what some [resolve] calls make of it. *)
Definition proc_of (w : World) : option HANDLE :=
  option_map fProc (instance w).

Definition proc_after (P : Platform) (p : option HANDLE)
    (symbols : list (list ascii)) : option HANDLE :=
  match p, symbols with
  | Some h, _ => Some h
  | None, [] => None
  | None, _ :: _ => Some (init_handle P)
  end.

(** What some [resolve] calls add to the trace. *)
Definition resolve_events (p : option HANDLE)
    (symbols : list (list ascii)) : list Event :=
  match p, symbols with
  | None, _ :: _ => EvSymInitialize :: map undecorate_event symbols
  | _, _ => map undecorate_event symbols
  end.

(** What the end of the process adds to it. *)
Definition exit_events (p : option HANDLE) : list Event :=
  match p with
  | Some h => if (h =? 0)%Z then [] else [EvSymCleanup]
  | None => []
  end.

(** The accesses to standard input the loop of [main] has yet to make:
    none over a queue; otherwise a test and a read for each line, and
    the test that ends the loop. *)
Definition stdin_events (w : World) : list Event :=
  match gInputStrings w with
  | Some _ => []
  | None =>
      concat (map (fun _ => [EvCinGood; EvCinGetline]) (pending_lines w))
      ++ [EvCinGood]
  end.

(** The lines a run works on when no help flag is given. *)
Definition input_lines (argv : list (list ascii)) (stdin : list ascii)
  : list (list ascii) :=
  match literals (tl argv) with
  | [] => split_lines stdin
  | lits => lits
  end.

(** * Properties *)

(** ** Byte strings *)

Section BytesFacts.

Lemma streq_true (a b : list ascii) : streq a b = true <-> a = b.
Proof.
  unfold streq. destruct (list_eq_dec ascii_dec a b); split; congruence.
Qed.

Lemma c_str_no_NUL (s : list ascii) : ~ In NUL (c_str s).
Proof.
  induction s as [|c s IH]; simpl; [tauto|].
  destruct (Ascii.eqb c NUL) eqn:E; simpl; [tauto|].
  intros [H|H]; [|tauto].
  subst c. rewrite Ascii.eqb_refl in E. discriminate.
Qed.

(** Reading a C string stops at the first NUL or at the end. *)
Lemma c_str_split (s : list ascii) :
  exists rest, s = c_str s ++ rest /\ (rest = [] \/ hd_error rest = Some NUL).
Proof.
  induction s as [|c s [rest [E H]]]; simpl.
  - exists []. auto.
  - destruct (Ascii.eqb c NUL) eqn:Ec.
    + apply Ascii.eqb_eq in Ec. subst c. exists (NUL :: s). simpl. auto.
    + exists rest. simpl. rewrite <- E. auto.
Qed.

Lemma c_str_id (s : list ascii) : ~ In NUL s -> c_str s = s.
Proof.
  induction s as [|c s IH]; simpl; intros H; [reflexivity|].
  destruct (Ascii.eqb c NUL) eqn:Ec.
  - apply Ascii.eqb_eq in Ec. tauto.
  - f_equal. apply IH. tauto.
Qed.

Lemma string_view_whole (s : list ascii) (a : nat) :
  string_view s a a = [].
Proof. unfold string_view. rewrite Nat.sub_diag. reflexivity. Qed.

(** Two adjacent views make up the tail of the string they start in. *)
Lemma skipn_string_view (s : list ascii) (a b : nat) :
  a <= b -> skipn a s = string_view s a b ++ skipn b s.
Proof.
  intros H. unfold string_view.
  replace b with ((b - a) + a) at 2 by lia.
  rewrite <- skipn_skipn. symmetry. apply firstn_skipn.
Qed.

End BytesFacts.

(** ** The pattern and the search *)

Section RegexFacts.

Lemma Matches_plus_class (p : ascii -> bool) (s : list ascii) :
  Matches (Plus (Class p)) s <-> s <> [] /\ forallb p s = true.
Proof.
  split.
  - intros H. remember (Plus (Class p)) as r eqn:Er.
    induction H; try discriminate; injection Er as ->.
    + inversion H as [|p' c Hc| | |]; subst. simpl. rewrite Hc.
      split; [discriminate|reflexivity].
    + inversion H as [|p' c Hc| | |]; subst. simpl. rewrite Hc.
      destruct (IHMatches2 eq_refl) as [_ ->]. split; [discriminate|reflexivity].
  - intros [Hne Hall]. induction s as [|c s IH]; [congruence|].
    simpl in Hall. apply andb_prop in Hall as [Hc Hs].
    destruct s as [|c' s'].
    + apply MPlus1. constructor. exact Hc.
    + apply (MPlusS (r := Class p) (s1 := [c])).
      * constructor. exact Hc.
      * apply IH; [discriminate|exact Hs].
Qed.

(** A string matches the pattern exactly when it is a question mark
    followed by one or more class characters. *)
Lemma Matches_pattern (m : list ascii) :
  Matches DECORATED_SYMBOL_PATTERN m <->
  exists run, m = "?"%char :: run /\ run <> [] /\
              forallb is_sym_char run = true.
Proof.
  unfold DECORATED_SYMBOL_PATTERN. split.
  - intros H. inversion H as [| |r1 r2 s1 s2 H1 H2| |]; subst.
    inversion H1; subst. exists s2. split; [reflexivity|].
    apply Matches_plus_class. exact H2.
  - intros [run [-> Hrun]].
    apply (MCat (s1 := ["?"%char])); [constructor|].
    apply Matches_plus_class. exact Hrun.
Qed.

Lemma is_qmark_true (c : ascii) : is_qmark c = true <-> c = "?"%char.
Proof. unfold is_qmark. apply Ascii.eqb_eq. Qed.

Lemma NUL_not_sym_char : is_sym_char NUL = false.
Proof. reflexivity. Qed.

(** A run of class characters that starts [s] is no longer than
    [run_length s]. *)
Lemma run_length_prefix (run r : list ascii) :
  forallb is_sym_char run = true -> length run <= run_length (run ++ r).
Proof.
  induction run as [|c run IH]; simpl; intros H; [lia|].
  apply andb_prop in H as [Hc Hr]. rewrite Hc. apply IH in Hr. lia.
Qed.

Lemma run_length_split (s : list ascii) :
  forallb is_sym_char (firstn (run_length s) s) = true /\
  run_length (skipn (run_length s) s) = 0.
Proof.
  induction s as [|c s [IH1 IH2]]; simpl; [auto|].
  destruct (is_sym_char c) eqn:E; simpl.
  - rewrite E, IH1. auto.
  - rewrite E. auto.
Qed.

Lemma run_length_le (s : list ascii) : run_length s <= length s.
Proof.
  induction s as [|c s IH]; simpl; [lia|].
  destruct (is_sym_char c); lia.
Qed.

Lemma Matches_starts (m suf : list ascii) :
  Matches DECORATED_SYMBOL_PATTERN m -> starts_match (m ++ suf) = true.
Proof.
  intros H. apply Matches_pattern in H as [run [-> [Hne Hall]]].
  simpl. apply Nat.ltb_lt. pose proof (run_length_prefix run suf Hall).
  destruct run; [congruence|simpl in *; lia].
Qed.

(** The search fails exactly on the strings with no matching
    substring. *)
Lemma regex_search_None (s : list ascii) (off : nat) :
  regex_search s off = None <->
  (forall pre m suf, s = pre ++ m ++ suf ->
                     ~ Matches DECORATED_SYMBOL_PATTERN m).
Proof.
  revert off. induction s as [|c s IH]; intros off; simpl.
  - split; [|reflexivity]. intros _ pre m suf E H.
    apply Matches_pattern in H as [run [-> _]].
    destruct pre; discriminate.
  - destruct (is_qmark c && (0 <? run_length s))%bool eqn:E.
    + split; [discriminate|]. intros H. exfalso.
      apply andb_prop in E as [Eq Er].
      apply is_qmark_true in Eq. subst c. apply Nat.ltb_lt in Er.
      destruct (run_length_split s) as [Hall _].
      apply (H [] ("?"%char :: firstn (run_length s) s)
               (skipn (run_length s) s)).
      * simpl. rewrite firstn_skipn. reflexivity.
      * apply Matches_pattern. eexists. split; [reflexivity|]. split; [|exact Hall].
        destruct s; simpl in *; [lia|].
        destruct (is_sym_char a); [discriminate|lia].
    + rewrite IH. split.
      * intros H pre m suf Es Hm. destruct pre as [|c' pre].
        -- simpl in Es. pose proof (Matches_starts suf Hm) as Hs.
           rewrite <- Es in Hs. simpl in Hs. congruence.
        -- injection Es as -> Es. exact (H pre m suf Es Hm).
      * intros H pre m suf Es. apply (H (c :: pre) m suf). simpl. congruence.
Qed.

(** A successful search yields the leftmost match, extended as far as
    the class characters go. *)
Lemma regex_search_Some (s : list ascii) (off first second : nat) :
  regex_search s off = Some (first, second) ->
  exists g m r,
    s = g ++ m ++ r /\ first = off + length g /\
    second = first + length m /\
    Matches DECORATED_SYMBOL_PATTERN m /\
    run_length r = 0 /\
    regex_search g off = None /\ 2 <= length m.
Proof.
  revert off. induction s as [|c s IH]; intros off; simpl; [discriminate|].
  destruct (is_qmark c && (0 <? run_length s))%bool eqn:E.
  - intros H. injection H as <- <-.
    apply andb_prop in E as [Eq Er].
    apply is_qmark_true in Eq. subst c. apply Nat.ltb_lt in Er.
    destruct (run_length_split s) as [Hall Hrest].
    assert (Hlen : length (firstn (run_length s) s) = run_length s)
      by (apply firstn_length_le, run_length_le).
    exists [], ("?"%char :: firstn (run_length s) s), (skipn (run_length s) s).
    simpl. rewrite firstn_skipn, Hlen.
    repeat split; try lia; try assumption.
    apply Matches_pattern. eexists. split; [reflexivity|]. split; [|exact Hall].
    intros Hnil. rewrite Hnil in Hlen. simpl in Hlen. lia.
  - intros H. apply IH in H as (g & m & r & -> & -> & -> & Hm & Hr & Hg & Hl).
    exists (c :: g), m, r. simpl. rewrite Hg.
    repeat split; try lia; try assumption.
    destruct g as [|c' g']; simpl.
    + destruct (is_qmark c); reflexivity.
    + simpl in E. destruct (is_qmark c); [|reflexivity].
      simpl in E |- *. destruct (is_sym_char c'); [discriminate E|reflexivity].
Qed.

End RegexFacts.

(** ** The token sequence *)

Section ScannerFacts.

Variable line : list ascii.

Lemma regex_search_in_line (pos first second : nat) :
  pos <= length line ->
  regex_search (skipn pos line) pos = Some (first, second) ->
  pos <= first /\ first + 2 <= second /\ second <= length line /\
  Matches DECORATED_SYMBOL_PATTERN (string_view line first second) /\
  regex_search (string_view line pos first) pos = None /\
  run_length (skipn second line) = 0.
Proof.
  intros Hpos H.
  apply regex_search_Some in H as (g & m & r & E & -> & -> & Hm & Hr & Hg & Hl).
  assert (Hlen : length (skipn pos line) = length line - pos)
    by apply length_skipn.
  rewrite E in Hlen. rewrite !length_app in Hlen.
  assert (Eg : string_view line pos (pos + length g) = g).
  { unfold string_view. rewrite E.
    replace (pos + length g - pos) with (length g + 0) by lia.
    rewrite firstn_app_2. simpl. apply app_nil_r. }
  assert (Er : skipn (pos + length g) line = m ++ r).
  { rewrite Nat.add_comm, <- skipn_skipn, E.
    replace (length g) with (length g + 0) by lia.
    rewrite skipn_app, skipn_all2 by lia.
    replace (length g + 0 - length g) with 0 by lia. reflexivity. }
  assert (Em : string_view line (pos + length g) (pos + length g + length m) = m).
  { unfold string_view. rewrite Er.
    replace (pos + length g + length m - (pos + length g))
      with (length m + 0) by lia.
    rewrite firstn_app_2. simpl. apply app_nil_r. }
  assert (Es : skipn (pos + length g + length m) line = r).
  { replace (pos + length g + length m)
      with (length m + (pos + length g)) by lia.
    rewrite <- skipn_skipn, Er.
    rewrite skipn_app, skipn_all2 by lia.
    rewrite Nat.sub_diag. reflexivity. }
  rewrite Eg, Em, Es. repeat split; try lia; assumption.
Qed.

(** The tokens are disjoint, in order and inside the line. *)
Lemma sregex_tokens_ordered (fuel pos : nat) :
  pos <= length line ->
  ordered (sregex_tokens fuel line pos) pos (length line).
Proof.
  revert pos. induction fuel as [|fuel IH]; intros pos Hpos; simpl; [exact Hpos|].
  destruct (regex_search (skipn pos line) pos) as [[first second]|] eqn:E;
    simpl; [|exact Hpos].
  apply regex_search_in_line in E as (H1 & H2 & H3 & _); [|exact Hpos].
  repeat split; try lia. apply IH. exact H3.
Qed.

(** Every token matches the pattern and no match starts in the gap
    before it. *)
Lemma sregex_tokens_sound (fuel pos : nat) :
  pos <= length line ->
  Forall (fun gm => regex_search (fst gm) 0 = None /\
                    Matches DECORATED_SYMBOL_PATTERN (snd gm))
         (pieces line (sregex_tokens fuel line pos) pos).
Proof.
  revert pos. induction fuel as [|fuel IH]; intros pos Hpos; simpl; [constructor|].
  destruct (regex_search (skipn pos line) pos) as [[first second]|] eqn:E;
    simpl; [|constructor].
  apply regex_search_in_line in E as (H1 & H2 & H3 & Hm & Hg & _); [|exact Hpos].
  constructor; [|apply IH; exact H3]. simpl. split; [|exact Hm].
  apply (regex_search_None _ 0). exact (proj1 (regex_search_None _ _) Hg).
Qed.

(** With [length line - pos] iterations allowed the iterator reaches
    its end: nothing matches after the last token. *)
Lemma sregex_tokens_fuel (fuel pos : nat) :
  pos <= length line -> length line - pos <= fuel ->
  regex_search
    (skipn (last_pos (sregex_tokens fuel line pos) pos) line) 0 = None.
Proof.
  revert pos. induction fuel as [|fuel IH]; intros pos Hpos Hfuel; simpl.
  - rewrite skipn_all2 by lia. reflexivity.
  - destruct (regex_search (skipn pos line) pos) as [[first second]|] eqn:E;
      simpl.
    + apply regex_search_in_line in E as (H1 & H2 & H3 & _); [|exact Hpos].
      apply IH; lia.
    + apply (regex_search_None _ 0). exact (proj1 (regex_search_None _ _) E).
Qed.

(** The gaps, the tokens and the trailing segment make up the line. *)
Lemma pieces_cover (it : list (nat * nat)) (prevPos : nat) :
  ordered it prevPos (length line) ->
  skipn prevPos line =
  concat (map (fun gm => fst gm ++ snd gm) (pieces line it prevPos))
  ++ skipn (last_pos it prevPos) line.
Proof.
  revert prevPos. induction it as [|[a b] it IH]; intros prevPos H; simpl.
  - reflexivity.
  - destruct H as (H1 & H2 & H3).
    rewrite <- !app_assoc, <- (IH b H3).
    rewrite <- (skipn_string_view line H2). apply skipn_string_view. exact H1.
Qed.

Lemma no_candidate_no_token :
  no_candidate line -> sregex_token_iterator line = [].
Proof.
  intros H. unfold sregex_token_iterator.
  destruct (length line); simpl; [reflexivity|].
  apply (regex_search_None line 0) in H. rewrite H. reflexivity.
Qed.

End ScannerFacts.

(** The scanner as a whole: the line is cut into gaps without a match,
    matches, and a trailing segment without a match. *)
Lemma scanner_spec (line : list ascii) :
  let ps := pieces line (sregex_token_iterator line) 0 in
  line = concat (map (fun gm => fst gm ++ snd gm) ps) ++ trailing line /\
  Forall (fun gm => no_candidate (fst gm) /\
                    Matches DECORATED_SYMBOL_PATTERN (snd gm)) ps /\
  no_candidate (trailing line).
Proof.
  unfold trailing, sregex_token_iterator. repeat split.
  - change line with (skipn 0 line) at 1.
    apply pieces_cover, sregex_tokens_ordered. lia.
  - eapply Forall_impl; [|apply sregex_tokens_sound; lia].
    intros gm [Hg Hm]. split; [|exact Hm].
    exact (proj1 (regex_search_None (fst gm) 0) Hg).
  - refine (proj1 (regex_search_None _ 0) _). apply sregex_tokens_fuel; lia.
Qed.

(** ** The resolver and the rewriter *)

Ltac run_m :=
  unfold bind, ret, get, put, endl, log, set_gKeepOldName,
    set_gInputStrings, set_cin, set_instance; simpl.

Section RewriterFacts.

Variable P : Platform.

Lemma frame_refl (w : World) : frame w w.
Proof. unfold frame. tauto. Qed.

Lemma frame_trans (w1 w2 w3 : World) :
  frame w1 w2 -> frame w2 w3 -> frame w1 w3.
Proof.
  unfold frame. intros (A1 & A2 & A3 & A4 & A5) (B1 & B2 & B3 & B4 & B5).
  repeat split; try congruence. auto.
Qed.

(** A [resolve] call answers what DbgHelp answers for the candidate,
    whatever happened when the singleton was constructed, and writes
    nothing. *)
Lemma resolve_spec (symbol : list ascii) (w : World) :
  fst (resolve P symbol w) = resolves P symbol /\
  cout (snd (resolve P symbol w)) = cout w /\
  frame w (snd (resolve P symbol w)) /\
  instance (snd (resolve P symbol w)) <> None.
Proof.
  unfold resolve, resolves, GetInstance, UndecorateSymbol, SymbolHandler_ctor,
    frame, singleton_ok, stdin_accesses, init_calls.
  destruct (instance w) as [h|] eqn:Ei; run_m; rewrite ?Ei;
    destruct (UnDecorateSymbolName P (c_str symbol) (kMAX_SYMBOL_NAME_LEN P))
      as [res out];
    run_m; destruct (res =? 0)%N; simpl;
    rewrite ?filter_app, ?length_app; simpl; rewrite ?app_nil_r;
    repeat split; try congruence; try lia.
Qed.

Lemma frame_cout (s : list ascii) (w : World) :
  frame w (mk_World (gKeepOldName w) (gInputStrings w) (cin w) s
             (instance w) (trace w)).
Proof. unfold frame, singleton_ok. simpl. tauto. Qed.

Lemma resolve_run (symbol : list ascii) (w : World) :
  exists w', resolve P symbol w = (resolves P symbol, w') /\
             cout w' = cout w /\ frame w w' /\ instance w' <> None.
Proof.
  destruct (resolve_spec symbol w) as (H1 & H2 & H3 & H4).
  destruct (resolve P symbol w) as [r w']. simpl in *. subst r.
  exists w'. auto.
Qed.

Lemma for_each_token_spec (line : list ascii) (it : list (nat * nat)) :
  forall (prevPos : nat) (w : World),
  exists w',
    for_each_token P line it prevPos w = (last_pos it prevPos, w') /\
    cout w' =
      cout w ++ concat (map (fun gm => fst gm ++ emit P (gKeepOldName w) (snd gm))
                          (pieces line it prevPos)) /\
    frame w w'.
Proof.
  induction it as [|[a b] it IH]; intros prevPos w.
  - exists w. simpl. rewrite app_nil_r. auto using frame_refl.
  - cbn [for_each_token pieces last_pos map concat fst snd].
    unfold bind at 1. cbn [put].
    set (w1 := mk_World _ _ _ (cout w ++ string_view line prevPos a) _ _).
    assert (F1 : frame w w1) by apply frame_cout.
    unfold bind at 1.
    destruct (resolve_run (string_view line a b) w1) as (w2 & -> & Hc & Hf & _).
    assert (K2 : gKeepOldName w2 = gKeepOldName w)
      by (destruct Hf as (-> & _); reflexivity).
    unfold emit at 1.
    destruct (resolves P (string_view line a b)) as [undecorated|].
    + run_m. rewrite K2.
      destruct (gKeepOldName w) eqn:K.
      * match goal with
        | |- context [for_each_token P line it b ?w3] =>
            destruct (IH b w3) as (w' & -> & I2 & I3)
        end.
        exists w'. split; [reflexivity|]. simpl in I2. rewrite I2, Hc, K2, ?K.
        subst w1. simpl. split; [rewrite <- !app_assoc; reflexivity|].
        refine (frame_trans F1 (frame_trans Hf (frame_trans _ I3))).
        apply frame_cout.
      * match goal with
        | |- context [for_each_token P line it b ?w3] =>
            destruct (IH b w3) as (w' & -> & I2 & I3)
        end.
        exists w'. split; [reflexivity|]. simpl in I2. rewrite I2, Hc, K2, ?K.
        subst w1. simpl. split; [rewrite <- !app_assoc; reflexivity|].
        refine (frame_trans F1 (frame_trans Hf (frame_trans _ I3))).
        apply frame_cout.
    + destruct (IH b w2) as (w' & -> & I2 & I3).
      exists w'. split; [reflexivity|]. rewrite I2, Hc, K2.
      subst w1. simpl. split.
      * rewrite <- !app_assoc. reflexivity.
      * exact (frame_trans F1 (frame_trans Hf I3)).
Qed.

(** What [main] writes for a line, and what it leaves alone. *)
Lemma process_line_spec (line : list ascii) (w : World) :
  exists w',
    process_line P line w = (tt, w') /\
    cout w' = cout w ++ rewritten P (gKeepOldName w) line /\
    frame w w'.
Proof.
  unfold process_line, rewritten, trailing. unfold bind at 1.
  destruct (for_each_token_spec line (sregex_token_iterator line) 0 w)
    as (w1 & -> & H2 & H3).
  destruct (last_pos (sregex_token_iterator line) 0 =? length line) eqn:E.
  - apply Nat.eqb_eq in E. rewrite E, skipn_all. run_m.
    eexists. split; [reflexivity|]. simpl. rewrite H2.
    split; [rewrite <- !app_assoc; reflexivity|].
    exact (frame_trans H3 (frame_cout _ w1)).
  - run_m. eexists. split; [reflexivity|]. simpl. rewrite H2.
    split; [rewrite <- !app_assoc; reflexivity|].
    exact (frame_trans H3 (frame_cout _ w1)).
Qed.
End RewriterFacts.

(** ** Command line *)

Section ArgsFacts.

Lemma literals_before_help_cons (arg : list ascii) (rest : list (list ascii)) :
  is_help arg = false ->
  literals (before_help (arg :: rest)) =
  (if is_keep arg then [] else [arg]) ++ literals (before_help rest).
Proof.
  intros H. unfold literals. simpl. rewrite H. simpl. rewrite H. simpl.
  destruct (is_keep arg); reflexivity.
Qed.

(** [processArgs] stops at the first help flag; before it, every keep
    flag sets [gKeepOldName] and every other argument is appended to
    the queue, which comes into being with the first of them. *)
Lemma processArgs_loop_spec (args : list (list ascii)) :
  forall w : World,
  exists w',
    processArgs_loop args w = (negb (existsb is_help args), w') /\
    gKeepOldName w' =
      (gKeepOldName w || existsb is_keep (before_help args))%bool /\
    gInputStrings w' =
      match literals (before_help args) with
      | [] => gInputStrings w
      | l => Some (match gInputStrings w with Some q => q | None => [] end
                   ++ l)
      end /\
    cin w' = cin w /\ instance w' = instance w /\ trace w' = trace w /\
    cout w' =
      cout w ++ (if existsb is_help args then help_output else []).
Proof.
  induction args as [|arg rest IH]; intros w.
  - exists w. simpl. rewrite orb_false_r, app_nil_r. auto 10.
  - cbn [processArgs_loop existsb].
    destruct (is_help arg) eqn:Eh.
    + unfold showHelp. run_m. rewrite Eh. eexists. split; [reflexivity|].
      simpl. rewrite orb_false_r. auto 10.
    + rewrite literals_before_help_cons by exact Eh.
      cbn [before_help]. rewrite Eh. cbn [existsb orb].
      destruct (is_keep arg) eqn:Ek.
      * unfold bind at 1. cbn [set_gKeepOldName].
        match goal with
        | |- context [processArgs_loop rest ?w1] =>
            destruct (IH w1) as (w' & -> & I1 & I2 & I3 & I4 & I5 & I6)
        end.
        exists w'. simpl in *. rewrite I1, I2, I3, I4, I5, I6, orb_true_r.
        auto 10.
      * run_m.
        destruct (gInputStrings w) as [q|] eqn:Eq; simpl;
          match goal with
          | |- context [processArgs_loop rest ?w1] =>
              destruct (IH w1) as (w' & -> & I1 & I2 & I3 & I4 & I5 & I6)
          end;
          exists w'; simpl in *; rewrite ?Eq in *;
          rewrite I1, I2, I3, I4, I5, I6;
          (repeat split; try reflexivity);
          destruct (literals (before_help rest)); simpl;
          rewrite <- ?app_assoc; reflexivity.
Qed.

Lemma no_help_before_help (args : list (list ascii)) :
  existsb is_help args = false -> before_help args = args.
Proof.
  induction args as [|arg rest IH]; simpl; [reflexivity|].
  destruct (is_help arg); simpl; [discriminate|].
  intros H. rewrite IH by exact H. reflexivity.
Qed.

End ArgsFacts.

(** ** Input source *)

Section InputFacts.

(** Over a queue, [getNextLine] pops the front and never looks at
    standard input. *)
Lemma getNextLine_queue (w : World) (q : list (list ascii)) :
  gInputStrings w = Some q ->
  getNextLine w =
  match q with
  | [] => (None, w)
  | front :: q' =>
      (Some front,
       mk_World (gKeepOldName w) (Some q') (cin w) (cout w) (instance w)
         (trace w))
  end.
Proof.
  intros H. unfold getNextLine, inputValid. run_m. rewrite H.
  destruct q as [|front q']; simpl; [reflexivity|].
  rewrite H. reflexivity.
Qed.

(** Without a queue, [getNextLine] asks [std::cin] whether it is good
    and, if so, hands out whatever [std::getline] stored. *)
Lemma getNextLine_stream (w : World) :
  gInputStrings w = None ->
  getNextLine w =
  if good (cin w) then
    (Some (snd (getline (cin w) [])),
     mk_World (gKeepOldName w) None (fst (getline (cin w) [])) (cout w)
       (instance w) ((trace w ++ [EvCinGood]) ++ [EvCinGetline]))
  else
    (None,
     mk_World (gKeepOldName w) None (cin w) (cout w) (instance w)
       (trace w ++ [EvCinGood])).
Proof.
  intros H. unfold getNextLine, inputValid. run_m. rewrite H. simpl.
  destruct (good (cin w)); simpl; rewrite ?H; simpl; [|reflexivity].
  destruct (getline (cin w) []) as [s' line']. simpl. rewrite ?H. reflexivity.
Qed.

(** Once a state bit of the stream is set no line is produced. *)
Lemma getNextLine_not_good (w : World) :
  gInputStrings w = None -> good (cin w) = false ->
  fst (getNextLine w) = None.
Proof.
  intros H G. rewrite getNextLine_stream, G by exact H. reflexivity.
Qed.

Lemma read_line_shorter (s l rest : list ascii) :
  read_line s = (l, Some rest) -> length rest < length s.
Proof.
  revert l. induction s as [|c s IH]; simpl; intros l H; [discriminate|].
  destruct (Ascii.eqb c LF).
  - injection H as _ <-. lia.
  - destruct (read_line s) as [l' [r'|]]; [|discriminate].
    injection H as _ <-. specialize (IH l' eq_refl). lia.
Qed.

(** Every line handed out brings the input source closer to its end. *)
Lemma getNextLine_progress (w : World) :
  match getNextLine w with
  | (Some _, w') => lines_left w' < lines_left w
  | (None, _) => True
  end.
Proof.
  destruct (gInputStrings w) as [q|] eqn:E.
  - rewrite (getNextLine_queue w E). destruct q; [exact I|].
    unfold lines_left. rewrite E. simpl. lia.
  - rewrite (getNextLine_stream w E). unfold lines_left. rewrite E.
    destruct (good (cin w)) eqn:G; [|exact I]. simpl.
    unfold getline. rewrite G.
    destruct (read_line (buf (cin w))) as [l [rest|]] eqn:R; simpl.
    + apply read_line_shorter in R.
      match goal with |- (if ?b then _ else _) < _ => destruct b end; lia.
    + unfold good. simpl. lia.
Qed.

Lemma getNextLine_singleton (w : World) :
  gKeepOldName (snd (getNextLine w)) = gKeepOldName w /\
  cout (snd (getNextLine w)) = cout w /\
  (singleton_ok w -> singleton_ok (snd (getNextLine w))).
Proof.
  destruct (gInputStrings w) as [q|] eqn:E.
  - rewrite (getNextLine_queue w E). destruct q; simpl; auto.
  - rewrite (getNextLine_stream w E). unfold singleton_ok, init_calls.
    destruct (good (cin w)); simpl; rewrite ?filter_app, ?length_app; simpl;
      repeat split; lia.
Qed.

(** [length q + k] calls of [getNextLine] over the queue [q]: its
    strings in order, then nothing, and standard input is as it was. *)
Lemma next_lines_queue (q : list (list ascii)) (k : nat) :
  forall w : World,
    gInputStrings w = Some q ->
    next_lines (length q + k) w =
    (map Some q ++ repeat None k,
     mk_World (gKeepOldName w) (Some []) (cin w) (cout w) (instance w)
       (trace w)).
Proof.
  induction q as [|front q IH]; intros w H.
  - simpl. clear - H. induction k as [|k IHk]; simpl.
    + unfold ret. destruct w; simpl in *. congruence.
    + unfold bind. rewrite (getNextLine_queue w H), IHk. reflexivity.
  - simpl. unfold bind. rewrite (getNextLine_queue w H).
    rewrite IH by reflexivity. reflexivity.
Qed.

End InputFacts.

(** ** The main loop *)

Section LoopFacts.

Variable P : Platform.

Lemma lines_left_frame (w w' : World) :
  frame w w' -> lines_left w' = lines_left w.
Proof.
  intros (_ & Hq & Hc & _). unfold lines_left. rewrite Hq, Hc. reflexivity.
Qed.



(** Over a queue the loop rewrites the queued strings in order and
    leaves standard input alone. *)
Lemma main_loop_queue (q : list (list ascii)) :
  forall (fuel : nat) (w : World),
    gInputStrings w = Some q -> length q < fuel ->
    exists w',
      main_loop P fuel w = (true, w') /\
      cout w' = cout w ++ concat (map (rewritten P (gKeepOldName w)) q) /\
      gKeepOldName w' = gKeepOldName w /\
      gInputStrings w' = Some [] /\
      cin w' = cin w /\
      stdin_accesses (trace w') = stdin_accesses (trace w).
Proof.
  induction q as [|front q IH]; intros fuel w Hq Hf;
    (destruct fuel as [|fuel]; [simpl in Hf; lia|]);
    cbn [main_loop]; unfold bind at 1; rewrite (getNextLine_queue w Hq).
  - exists w. simpl. rewrite app_nil_r. auto 10.
  - unfold bind.
    match goal with
    | |- context [process_line P front ?w1] =>
        destruct (process_line_spec P front w1)
          as (w2 & -> & Hc & K & Q & C & T & _)
    end.
    simpl in Hc, K, Q, C, T.
    destruct (IH fuel w2 Q) as (w' & -> & I1 & I2 & I3 & I4 & I5);
      [simpl in Hf; lia|].
    exists w'. split; [reflexivity|].
    rewrite I1, I2, I4, I5, Hc, K, C, T. simpl.
    rewrite <- app_assoc. auto 10.
Qed.

(** The discipline of the singleton is kept throughout the loop. *)
Lemma main_loop_singleton (fuel : nat) :
  forall w : World,
    singleton_ok w -> singleton_ok (snd (main_loop P fuel w)).
Proof.
  induction fuel as [|fuel IH]; intros w H; [exact H|].
  cbn [main_loop]. unfold bind at 1.
  destruct (getNextLine_singleton w) as (_ & _ & S1).
  destruct (getNextLine w) as [[l|] w1]; simpl in S1; [|auto].
  unfold bind.
  destruct (process_line_spec P l w1) as (w2 & -> & _ & _ & _ & _ & _ & S2).
  auto.
Qed.

End LoopFacts.

(** ** Whole runs *)

Section RunFacts.

Variable P : Platform.

Lemma at_exit_spec (w : World) :
  exists w',
    at_exit w = (tt, w') /\
    cin w' = cin w /\ cout w' = cout w /\
    stdin_accesses (trace w') = stdin_accesses (trace w) /\
    init_calls (trace w') = init_calls (trace w) /\
    cleanup_calls (trace w') =
      cleanup_calls (trace w) +
      match instance w with
      | Some h => if (fProc h =? 0)%Z then 0 else 1
      | None => 0
      end.
Proof.
  unfold at_exit, SymbolHandler_dtor, stdin_accesses, init_calls, cleanup_calls.
  run_m. destruct (instance w) as [h|]; [destruct (fProc h =? 0)%Z|];
    eexists; (split; [reflexivity|]); simpl;
    rewrite ?filter_app, ?length_app; simpl; rewrite ?app_nil_r;
    repeat split; lia.
Qed.

(** What a run does, in terms of its three stages. *)
Lemma run_unfold (argv : list (list ascii)) (stdin : list ascii) :
  run P argv stdin =
  let (ok, w1) := processArgs argv (start stdin) in
  if ok then
    let (finished, w2) := main_loop P (loop_bound w1) w1 in
    (if finished then Some 0%Z else None, snd (at_exit w2))
  else (Some 0%Z, snd (at_exit w1)).
Proof.
  unfold run, main. unfold bind, ret.
  destruct (processArgs argv (start stdin)) as [ok w1]. cbn [snd negb].
  destruct ok; cbn [negb].
  - destruct (main_loop P (loop_bound w1) w1) as [finished w2].
    destruct finished; destruct (at_exit w2); reflexivity.
  - destruct (at_exit w1); reflexivity.
Qed.


(** [SymInitialize] is called at most once in a run. *)
Lemma run_init_once (argv : list (list ascii)) (stdin : list ascii) :
  init_calls (trace (snd (run P argv stdin))) <= 1.
Proof.
  rewrite run_unfold. unfold processArgs.
  destruct (processArgs_loop_spec (tl argv) (start stdin))
    as (w1 & -> & _ & _ & _ & I & T & _).
  assert (S1 : singleton_ok w1).
  { unfold singleton_ok. rewrite I, T. reflexivity. }
  destruct (negb (existsb is_help (tl argv))).
  - pose proof (main_loop_singleton P (loop_bound w1) S1) as S2.
    destruct (main_loop P (loop_bound w1) w1) as [finished w2]. simpl in S2.
    destruct (at_exit_spec w2) as (w3 & -> & _ & _ & _ & I3 & _).
    cbn [fst snd]. rewrite I3.
    red in S2. rewrite S2. destruct (instance w2); lia.
  - destruct (at_exit_spec w1) as (w3 & -> & _ & _ & _ & I3 & _).
    cbn [fst snd]. rewrite I3, T. unfold init_calls. simpl. lia.
Qed.

Lemma literals_before_help_nil (args : list (list ascii)) :
  literals args = [] -> literals (before_help args) = [].
Proof.
  unfold literals. induction args as [|arg rest IH]; simpl; [reflexivity|].
  destruct (is_help arg) eqn:Eh; simpl; [reflexivity|]. rewrite ?Eh.
  destruct (is_keep arg); simpl; [exact IH|discriminate].
Qed.

(** With a literal string among the arguments a run never touches
    standard input. *)
Lemma run_without_stdin (argv : list (list ascii)) (stdin : list ascii) :
  literals (tl argv) <> [] ->
  stdin_accesses (trace (snd (run P argv stdin))) = [] /\
  cin (snd (run P argv stdin)) = cin (start stdin).
Proof.
  intros Hl. rewrite run_unfold. unfold processArgs.
  destruct (processArgs_loop_spec (tl argv) (start stdin))
    as (w1 & -> & _ & Q & C & _ & T & _).
  destruct (existsb is_help (tl argv)) eqn:Eh; cbn [negb].
  - destruct (at_exit_spec w1) as (w3 & -> & C3 & _ & T3 & _).
    cbn [fst snd]. rewrite T3, C3, T, C. auto.
  - rewrite (no_help_before_help _ Eh) in Q.
    destruct (literals (tl argv)) as [|l ls] eqn:El; [congruence|].
    simpl in Q.
    destruct (main_loop_queue P (q := l :: ls) (fuel := loop_bound w1) w1 Q)
      as (w2 & -> & _ & _ & _ & C2 & T2).
    { unfold loop_bound. rewrite Q. lia. }
    destruct (at_exit_spec w2) as (w3 & -> & C3 & _ & T3 & _).
    cbn [fst snd]. rewrite T3, C3, T2, C2, T, C. auto.
Qed.

End RunFacts.

(** * The claims *)

(** ** Rewriting a line *)

(** What [main] writes for a line, as a function of the line. *)
Lemma process_line_cout (P : Platform) (line : list ascii) (w : World) :
  cout (snd (process_line P line w)) =
  cout w ++ rewritten P (gKeepOldName w) line.
Proof.
  destruct (process_line_spec P line w) as (w' & -> & H & _). exact H.
Qed.

(** Without a candidate nothing but the line, read as a C string, is
    written. *)
Lemma rewritten_no_candidate
    (P : Platform) (keep : bool) (line : list ascii) :
  no_candidate line -> rewritten P keep line = c_str line ++ [LF].
Proof.
  intros H. unfold rewritten, trailing.
  rewrite (no_candidate_no_token H). reflexivity.
Qed.

(** C7. Scenario A: for the line [call ?foo@@YAXXZ done], a resolver
    that maps [?foo@@YAXXZ] to [void foo(void)] and [keepOriginal]
    false, the output line is [call void foo(void) done]: the
    resolved name replaces the match and the text around it is
    untouched. *)
Theorem scenario_A_replace (P : Platform) (w : World) :
  resolves P (str "?foo@@YAXXZ") = Some (str "void foo(void)") ->
  gKeepOldName w = false ->
  cout (snd (process_line P (str "call ?foo@@YAXXZ done") w)) =
  cout w ++ str "call void foo(void) done" ++ [LF].
Proof.
  intros Hr Hk. rewrite process_line_cout, Hk.
  unfold rewritten, trailing, emit. cbn -[resolves] in Hr |- *.
  rewrite Hr. reflexivity.
Qed.

Lemma scenario_A_replace_witness :
  cout (snd (process_line demo_platform (str "call ?foo@@YAXXZ done")
               (start []))) =
  str "call void foo(void) done" ++ [LF].
Proof.
  apply (@scenario_A_replace demo_platform (start [])); reflexivity.
Defined.

(** C8. Scenario B: for the same line and resolver and [keepOriginal]
    true, the output line is [call ?foo@@YAXXZ "void foo(void)" done]:
    the matched text, one space, the resolved name in double quotes. *)
Theorem scenario_B_keep (P : Platform) (w : World) :
  resolves P (str "?foo@@YAXXZ") = Some (str "void foo(void)") ->
  gKeepOldName w = true ->
  cout (snd (process_line P (str "call ?foo@@YAXXZ done") w)) =
  cout w ++ str "call ?foo@@YAXXZ " ++ [DQUOTE] ++ str "void foo(void)"
         ++ [DQUOTE] ++ str " done" ++ [LF].
Proof.
  intros Hr Hk. rewrite process_line_cout, Hk.
  unfold rewritten, trailing, emit. cbn -[resolves] in Hr |- *.
  rewrite Hr. reflexivity.
Qed.

Lemma scenario_B_keep_witness :
  cout (snd (process_line demo_platform (str "call ?foo@@YAXXZ done")
               (snd (set_gKeepOldName true (start []))))) =
  str "call ?foo@@YAXXZ " ++ [DQUOTE] ++ str "void foo(void)"
    ++ [DQUOTE] ++ str " done" ++ [LF].
Proof.
  apply (@scenario_B_keep demo_platform
           (snd (set_gKeepOldName true (start [])))); reflexivity.
Defined.

(** C1. Scenario D as the program runs it: for the line
    [?bad@ ?foo@@YAXXZ], a resolver that fails on [?bad@] and maps
    [?foo@@YAXXZ] to [void foo(void)], and [keepOriginal] false, the
    output line is [ void foo(void)].  The unresolved candidate is not
    written at all, where the claim has it passed through. *)
Theorem scenario_D_drops_unresolved (P : Platform) (w : World) :
  resolves P (str "?bad@") = None ->
  resolves P (str "?foo@@YAXXZ") = Some (str "void foo(void)") ->
  gKeepOldName w = false ->
  cout (snd (process_line P (str "?bad@ ?foo@@YAXXZ") w)) =
  cout w ++ str " void foo(void)" ++ [LF].
Proof.
  intros Hb Hr Hk. rewrite process_line_cout, Hk.
  unfold rewritten, trailing, emit. cbn -[resolves] in Hb, Hr |- *.
  rewrite Hb, Hr. reflexivity.
Qed.

Lemma scenario_D_drops_unresolved_witness :
  cout (snd (process_line demo_platform (str "?bad@ ?foo@@YAXXZ")
               (start []))) =
  str " void foo(void)" ++ [LF].
Proof.
  apply (@scenario_D_drops_unresolved demo_platform (start []));
    reflexivity.
Defined.

(** C2. With a resolver that fails on every candidate the output line
    is the line without its candidates: the gaps, then the trailing
    segment read as a C string.  It is not the input line as soon as
    the line holds a candidate. *)
Theorem failing_resolver_erases_candidates
    (P : Platform) (line : list ascii) (w : World) :
  (forall symbol, resolves P symbol = None) ->
  cout (snd (process_line P line w)) =
  cout w
  ++ concat (map fst (pieces line (sregex_token_iterator line) 0))
  ++ c_str (trailing line) ++ [LF].
Proof.
  intros Hr. rewrite process_line_cout. unfold rewritten. do 2 f_equal.
  f_equal. apply map_ext. intros [g m]. unfold emit. rewrite Hr.
  apply app_nil_r.
Qed.

Lemma failing_resolver_erases_candidates_witness :
  cout (snd (process_line failing_platform (str "a ?bad@ b") (start []))) =
  str "a  b" ++ [LF].
Proof.
  rewrite (@failing_resolver_erases_candidates failing_platform
             (str "a ?bad@ b") (start []) (fun _ => eq_refl)).
  reflexivity.
Defined.

(** C3. For a line without a candidate the output is the line read as
    a C string, then the line terminator, whatever [keepOriginal] and
    the resolver are.  A line with a NUL byte is cut there, where the
    claim has the whole line written. *)
Theorem line_without_candidate_cut_at_NUL
    (P : Platform) (line : list ascii) (w : World) :
  no_candidate line ->
  cout (snd (process_line P line w)) = cout w ++ c_str line ++ [LF].
Proof.
  intros H. rewrite process_line_cout, (rewritten_no_candidate P _ H).
  reflexivity.
Qed.

Lemma no_candidate_a_NUL_b : no_candidate (str "a" ++ [NUL] ++ str "b").
Proof. refine (proj1 (regex_search_None _ 0) _). reflexivity. Qed.

Lemma line_without_candidate_cut_at_NUL_witness :
  cout (snd (process_line demo_platform (str "a" ++ [NUL] ++ str "b")
               (start []))) =
  str "a" ++ [LF].
Proof.
  apply (@line_without_candidate_cut_at_NUL demo_platform
           (str "a" ++ [NUL] ++ str "b") (start []) no_candidate_a_NUL_b).
Defined.

(** The pass-through property does hold for the lines without a NUL
    byte. *)
Lemma line_without_candidate_or_NUL
    (P : Platform) (line : list ascii) (w : World) :
  no_candidate line -> ~ In NUL line ->
  cout (snd (process_line P line w)) = cout w ++ line ++ [LF].
Proof.
  intros H N. rewrite process_line_cout, (rewritten_no_candidate P _ H).
  rewrite (c_str_id _ N). reflexivity.
Qed.

(** C9. For every line, the gaps before and between the matches are
    written whole, NUL bytes included, while the segment after the
    last match (the whole line when nothing matches) is written up to
    its first NUL byte only. *)
Theorem trailing_segment_cut_at_NUL
    (P : Platform) (line : list ascii) (w : World) :
  let ps := pieces line (sregex_token_iterator line) 0 in
  line = concat (map (fun gm => fst gm ++ snd gm) ps) ++ trailing line /\
  Forall (fun gm => Matches DECORATED_SYMBOL_PATTERN (snd gm)) ps /\
  no_candidate (trailing line) /\
  cout (snd (process_line P line w)) =
    cout w
    ++ concat (map (fun gm => fst gm ++ emit P (gKeepOldName w) (snd gm)) ps)
    ++ c_str (trailing line) ++ [LF] /\
  ~ In NUL (c_str (trailing line)) /\
  exists rest,
    trailing line = c_str (trailing line) ++ rest /\
    (rest = [] \/ hd_error rest = Some NUL).
Proof.
  intros ps. destruct (scanner_spec line) as (H1 & H2 & H3).
  split; [exact H1|]. split.
  { eapply Forall_impl; [|exact H2]. intros gm [_ Hm]. exact Hm. }
  split; [exact H3|]. split; [apply process_line_cout|].
  split; [apply c_str_no_NUL|apply c_str_split].
Qed.

Example NUL_in_gap_and_in_trailing_segment :
  cout (snd (process_line demo_platform
               (str "a" ++ [NUL] ++ str "b ?foo@@YAXXZ c" ++ [NUL] ++ str "d")
               (start []))) =
  str "a" ++ [NUL] ++ str "b void foo(void) c" ++ [LF].
Proof. reflexivity. Qed.

(** ** The resolver's life cycle *)

Lemma resolves_with_SymInitialize (b : bool) (P : Platform) :
  resolves (with_SymInitialize b P) = resolves P.
Proof. reflexivity. Qed.

(** One [resolve] call: the handler is constructed if it does not
    exist yet, and is kept as it is otherwise. *)
Lemma resolve_trace (P : Platform) (symbol : list ascii) (w : World) :
  exists w' h',
    resolve P symbol w = (resolves P symbol, w') /\
    instance w' = Some h' /\
    fProc h' = match instance w with
               | Some h => fProc h
               | None => if SymInitialize P then GetCurrentProcess else 0%Z
               end /\
    trace w' = trace w
               ++ match instance w with
                  | Some _ => []
                  | None => [EvSymInitialize]
                  end
               ++ [undecorate_event symbol].
Proof.
  unfold resolve, resolves, GetInstance, UndecorateSymbol, SymbolHandler_ctor,
    undecorate_event.
  destruct (instance w) as [h|] eqn:Ei; run_m; rewrite ?Ei;
    destruct (UnDecorateSymbolName P (c_str symbol) (kMAX_SYMBOL_NAME_LEN P))
      as [res out];
    run_m; destruct (res =? 0)%N; simpl;
    do 2 eexists; (split; [reflexivity|]); simpl;
    rewrite <- ?app_assoc; auto.
Qed.

Lemma resolve_all_trace (P : Platform) (symbols : list (list ascii)) :
  forall (w : World) (h : SymbolHandler),
    instance w = Some h ->
    exists w' h',
      resolve_all P symbols w = (map (resolves P) symbols, w') /\
      instance w' = Some h' /\ fProc h' = fProc h /\
      trace w' = trace w ++ map undecorate_event symbols.
Proof.
  induction symbols as [|symbol rest IH]; intros w h Hi.
  - exists w, h. simpl. rewrite app_nil_r. auto.
  - cbn [resolve_all map]. unfold bind at 1.
    destruct (resolve_trace P symbol w) as (w1 & h1 & -> & I1 & F1 & T1).
    rewrite Hi in F1, T1.
    destruct (IH w1 h1 I1) as (w2 & h2 & E2 & I2 & F2 & T2).
    unfold bind, ret. rewrite E2. exists w2, h2.
    rewrite T2, T1, <- app_assoc. simpl. repeat split; congruence.
Qed.

(** C4 (as the code has it). The outcome of [SymInitialize] is never
    consulted by a [resolve] call.  For the calls a process makes, in
    order: each returns what [UnDecorateSymbolName] answers for its
    candidate, whether the initialisation succeeded or failed;
    [SymInitialize] is called once, by the first call, and never again;
    a failed initialisation only keeps [SymCleanup] from being called
    when the process ends.  In a whole run [SymInitialize] is called at
    most once. *)
Theorem resolve_ignores_failed_initialisation
    (P : Platform) (b : bool) (symbols : list (list ascii))
    (stdin : list ascii) (argv : list (list ascii)) :
  let r := resolve_all (with_SymInitialize b P) symbols (start stdin) in
  fst r = map (resolves P) symbols /\
  trace (snd r) =
    match symbols with
    | [] => []
    | _ :: _ => EvSymInitialize :: map undecorate_event symbols
    end /\
  cleanup_calls (trace (snd (at_exit (snd r)))) =
    match symbols with
    | [] => 0
    | _ :: _ => if b then 1 else 0
    end /\
  init_calls (trace (snd (run (with_SymInitialize b P) argv stdin))) <= 1.
Proof.
  intros r. subst r. set (P' := with_SymInitialize b P).
  assert (Hrun := run_init_once P' argv stdin).
  destruct symbols as [|symbol rest].
  - simpl. auto.
  - cbn [resolve_all map].
    destruct (resolve_trace P' symbol (start stdin))
      as (w1 & h1 & E1 & I1 & F1 & T1).
    destruct (resolve_all_trace P' rest w1 I1)
      as (w2 & h2 & E2 & I2 & F2 & T2).
    unfold bind, ret. rewrite E1, E2. cbn [fst snd].
    rewrite T2, T1. simpl in F1 |- *.
    split; [reflexivity|]. split; [reflexivity|]. split; [|exact Hrun].
    destruct (at_exit_spec w2) as (w3 & -> & _ & _ & _ & _ & C3).
    cbn [snd]. rewrite C3, I2, F2, F1, T2, T1.
    unfold cleanup_calls, undecorate_event. simpl.
    replace (filter _ (map _ rest)) with (@nil Event).
    + destruct b; reflexivity.
    + clear. induction rest; simpl; auto.
Qed.

(** C4 as stated fails: after an initialisation that failed, a
    [resolve] call still returns a resolved name, at the first call
    and at the next one, and the run of scenario A writes it. *)
Lemma failed_initialisation_still_resolves :
  SymInitialize uninitialised_platform = false /\
  fst (resolve_all uninitialised_platform
         [str "?foo@@YAXXZ"; str "?foo@@YAXXZ"] (start [])) =
    [Some (str "void foo(void)"); Some (str "void foo(void)")] /\
  stdout_of (run uninitialised_platform
               [str "msvcfilt"; str "call ?foo@@YAXXZ done"] []) =
    str "call void foo(void) done" ++ [LF].
Proof. repeat split; reflexivity. Qed.

(** ** The input source *)

Lemma read_line_app (l rest : list ascii) :
  ~ In LF l -> read_line (l ++ LF :: rest) = (l, Some rest).
Proof.
  induction l as [|c l IH]; simpl; intros H.
  - reflexivity.
  - destruct (Ascii.eqb c LF) eqn:E.
    + apply Ascii.eqb_eq in E. tauto.
    + rewrite IH by tauto. reflexivity.
Qed.

(** C5 as the program runs it: when standard input holds the lines
    [ls], each ended by a line feed, [getNextLine] hands out those
    lines and then one more, empty, before it returns nothing.  The
    stream reports its end only after a read has run into it, and
    [getNextLine] tests the stream before the read, not after. *)
Theorem stream_hands_out_one_line_too_many (ls : list (list ascii)) :
  forall w : World,
    Forall (fun l => ~ In LF l) ls ->
    gInputStrings w = None ->
    good (cin w) = true ->
    buf (cin w) = concat (map (fun l => l ++ [LF]) ls) ->
    fst (next_lines (length ls + 2) w) = map Some ls ++ [Some []; None].
Proof.
  induction ls as [|l ls IH]; intros w Hls Hq Hg Hb.
  - simpl in Hb |- *. unfold bind.
    rewrite (getNextLine_stream w Hq), Hg. unfold getline.
    rewrite Hg, Hb. reflexivity.
  - inversion Hls as [|l' ls' Hl Hls']; subst.
    cbn [length Nat.add next_lines map app]. unfold bind at 1.
    rewrite (getNextLine_stream w Hq), Hg. unfold getline.
    simpl in Hb. rewrite Hg, Hb, <- app_assoc. simpl.
    rewrite read_line_app by exact Hl. simpl.
    unfold bind, ret.
    match goal with
    | |- context [next_lines _ ?w1] =>
        pose proof (IH w1 Hls' eq_refl) as H1
    end.
    simpl in H1. specialize (H1 Hg eq_refl).
    match goal with
    | |- context [next_lines ?n ?w1] =>
        destruct (next_lines n w1) as [rs w2]
    end.
    simpl in H1 |- *. rewrite H1. reflexivity.
Qed.

Lemma stream_hands_out_one_line_too_many_witness :
  fst (next_lines 3 (start (str "a" ++ [LF]))) = [Some (str "a"); Some []; None].
Proof.
  apply (@stream_hands_out_one_line_too_many [str "a"]
           (start (str "a" ++ [LF]))).
  - repeat constructor. simpl. intros [H|[]]. discriminate H.
  - reflexivity.
  - reflexivity.
  - reflexivity.
Defined.

(** An empty standard input gives one output line, and one line on
    standard input gives two. *)
Example empty_stdin_one_output_line (P : Platform) :
  stdout_of (run P [str "msvcfilt"] []) = [LF].
Proof. reflexivity. Qed.

Example one_line_two_output_lines (P : Platform) :
  stdout_of (run P [str "msvcfilt"] (str "a" ++ [LF])) =
  str "a" ++ [LF] ++ [LF].
Proof. reflexivity. Qed.

Example unterminated_last_line (P : Platform) :
  stdout_of (run P [str "msvcfilt"] (str "a" ++ [LF] ++ str "b")) =
  str "a" ++ [LF] ++ str "b" ++ [LF].
Proof. reflexivity. Qed.

(** C6. If the arguments hold a literal string, no run reads standard
    input; when the program gets as far as its loop, the queue holds
    the literal strings in the order given and [getNextLine] hands
    them out one per call, first in first out, and returns nothing
    from then on, standard input staying as it was.  If the arguments
    hold no literal string there is no queue, and [getNextLine] in a
    state without a queue goes by standard input alone. *)
Theorem literal_strings_exclude_stdin
    (P : Platform) (argv : list (list ascii)) (stdin : list ascii)
    (k : nat) :
  let w1 := snd (processArgs argv (start stdin)) in
  let lits := literals (tl argv) in
  (lits <> [] ->
   (stdin_accesses (trace (snd (run P argv stdin))) = [] /\
    cin (snd (run P argv stdin)) = cin (start stdin)) /\
   (existsb is_help (tl argv) = false ->
    gInputStrings w1 = Some lits /\
    fst (next_lines (length lits + k) w1) = map Some lits ++ repeat None k /\
    cin (snd (next_lines (length lits + k) w1)) = cin (start stdin) /\
    trace (snd (next_lines (length lits + k) w1)) = [])) /\
  (lits = [] ->
   gInputStrings w1 = None /\
   forall w : World,
     gInputStrings w = None ->
     getNextLine w =
     if good (cin w) then
       (Some (snd (getline (cin w) [])),
        mk_World (gKeepOldName w) None (fst (getline (cin w) [])) (cout w)
          (instance w) ((trace w ++ [EvCinGood]) ++ [EvCinGetline]))
     else
       (None,
        mk_World (gKeepOldName w) None (cin w) (cout w) (instance w)
          (trace w ++ [EvCinGood]))).
Proof.
  intros w1 lits. subst w1 lits. unfold processArgs.
  destruct (processArgs_loop_spec (tl argv) (start stdin))
    as (w1 & E & _ & Q & C & _ & T & _).
  rewrite E. cbn [snd]. split.
  - intros Hl. split; [apply run_without_stdin; exact Hl|].
    intros Hh. rewrite (no_help_before_help _ Hh) in Q.
    destruct (literals (tl argv)) as [|l ls] eqn:El; [congruence|].
    simpl in Q. split; [exact Q|].
    rewrite (next_lines_queue k w1 Q). simpl. auto.
  - intros Hl. split; [|exact getNextLine_stream].
    rewrite (literals_before_help_nil _ Hl) in Q. exact Q.
Qed.

Lemma literal_strings_exclude_stdin_witness :
  (stdin_accesses
     (trace (snd (run demo_platform [str "msvcfilt"; str "a"; str "b"]
                    (str "unread")))) = [] /\
   cin (snd (run demo_platform [str "msvcfilt"; str "a"; str "b"]
               (str "unread"))) = cin (start (str "unread"))) /\
  fst (next_lines 3
         (snd (processArgs [str "msvcfilt"; str "a"; str "b"]
                 (start (str "unread"))))) =
    [Some (str "a"); Some (str "b"); None].
Proof.
  assert (Hl : literals (tl [str "msvcfilt"; str "a"; str "b"]) <> [])
    by discriminate.
  destruct (@literal_strings_exclude_stdin demo_platform
              [str "msvcfilt"; str "a"; str "b"] (str "unread") 1)
    as [H _].
  destruct (H Hl) as [H1 H2]. split; [exact H1|].
  destruct (H2 eq_refl) as (_ & H3 & _). exact H3.
Defined.

(** Scenario E: two literal strings give two output lines and standard
    input is not touched. *)
Example scenario_E (P : Platform) (stdin : list ascii) :
  stdout_of (run P [str "msvcfilt"; str "a"; str "b"] stdin) =
    str "a" ++ [LF] ++ str "b" ++ [LF] /\
  cin (snd (run P [str "msvcfilt"; str "a"; str "b"] stdin)) =
    cin (start stdin) /\
  trace (snd (run P [str "msvcfilt"; str "a"; str "b"] stdin)) = [].
Proof. repeat split; reflexivity. Qed.

(** C10 (as the code has it). [processArgs] goes through the arguments
    after the program name up to the first help flag and stops
    there.  Of the arguments before it, every [-keep] or [--keep]
    sets [gKeepOldName] and is not queued, and every other one is
    appended to the queue in the order given; the queue exists from
    the first of them on.  Nothing else changes, but for the help
    text written when a help flag is met. *)
Theorem processArgs_up_to_help (argv : list (list ascii)) (w : World) :
  let args := before_help (tl argv) in
  let w' := snd (processArgs argv w) in
  fst (processArgs argv w) = negb (existsb is_help (tl argv)) /\
  gKeepOldName w' = (gKeepOldName w || existsb is_keep args)%bool /\
  gInputStrings w' =
    match literals args with
    | [] => gInputStrings w
    | l => Some (match gInputStrings w with Some q => q | None => [] end
                 ++ l)
    end /\
  Forall (fun arg => is_keep arg = false) (literals args) /\
  cin w' = cin w /\ instance w' = instance w /\ trace w' = trace w /\
  cout w' =
    cout w ++ (if existsb is_help (tl argv) then help_output else []).
Proof.
  intros args w'. subst args w'. unfold processArgs.
  destruct (processArgs_loop_spec (tl argv) w)
    as (w' & -> & K & Q & C & I & T & O).
  cbn [fst snd]. repeat split; try assumption.
  apply Forall_forall. intros arg H. unfold literals in H.
  apply filter_In in H as [_ H]. apply negb_true_iff in H.
  apply orb_false_iff in H. tauto.
Qed.

(** C10 as stated fails: a [-keep] and a literal string that come
    after a help flag are not looked at. *)
Lemma keep_after_help_is_ignored :
  In (str "-keep") (tl [str "msvcfilt"; str "--help"; str "-keep"; str "x"]) /\
  In (str "x") (tl [str "msvcfilt"; str "--help"; str "-keep"; str "x"]) /\
  gKeepOldName
    (snd (processArgs [str "msvcfilt"; str "--help"; str "-keep"; str "x"]
            (start []))) = false /\
  gInputStrings
    (snd (processArgs [str "msvcfilt"; str "--help"; str "-keep"; str "x"]
            (start []))) = None.
Proof.
  repeat split; try reflexivity.
  - simpl. auto.
  - simpl. auto.
Qed.

Example keep_flag_anywhere :
  let w := snd (processArgs [str "msvcfilt"; str "a"; str "--keep"; str "b";
                             str "-keep"; str "c"] (start [])) in
  gKeepOldName w = true /\ gInputStrings w = Some [str "a"; str "b"; str "c"].
Proof. split; reflexivity. Qed.

(** ** Runs of the scenarios *)

Example tokens_scenario_A :
  sregex_token_iterator (str "call ?foo@@YAXXZ done") = [(5, 16)].
Proof. reflexivity. Qed.

Example tokens_scenario_D :
  sregex_token_iterator (str "?bad@ ?foo@@YAXXZ") = [(0, 5); (6, 17)].
Proof. reflexivity. Qed.

Example tokens_lone_question_marks :
  sregex_token_iterator (str "why? ?? a?b") = [(5, 7); (9, 11)].
Proof. reflexivity. Qed.

Example run_scenario_A :
  stdout_of (run demo_platform
               [str "msvcfilt"; str "call ?foo@@YAXXZ done"] []) =
  str "call void foo(void) done" ++ [LF].
Proof. reflexivity. Qed.

Example run_scenario_B :
  stdout_of (run demo_platform
               [str "msvcfilt"; str "-keep"; str "call ?foo@@YAXXZ done"] []) =
  str "call ?foo@@YAXXZ " ++ [DQUOTE] ++ str "void foo(void)" ++ [DQUOTE]
    ++ str " done" ++ [LF].
Proof. reflexivity. Qed.

Example run_scenario_C :
  stdout_of (run demo_platform
               [str "msvcfilt"; str "--keep"; str "no symbols here"] []) =
  str "no symbols here" ++ [LF] /\
  stdout_of (run demo_platform [str "msvcfilt"; str "no symbols here"] []) =
  str "no symbols here" ++ [LF].
Proof. split; reflexivity. Qed.

Example run_scenario_D :
  stdout_of (run demo_platform [str "msvcfilt"; str "?bad@ ?foo@@YAXXZ"] []) =
  str " void foo(void)" ++ [LF].
Proof. reflexivity. Qed.

Example run_on_stdin :
  stdout_of (run demo_platform [str "msvcfilt"]
               (str "call ?foo@@YAXXZ done" ++ [LF] ++ str "?foo@@YAXXZ")) =
  str "call void foo(void) done" ++ [LF] ++ str "void foo(void)" ++ [LF].
Proof. reflexivity. Qed.

Example run_help :
  run demo_platform [str "msvcfilt"; str "a"; str "-help"; str "b"]
    (str "unread") =
  (Some 0%Z,
   mk_World false (Some [str "a"])
     (mk_istream (str "unread") false false false) help_output None []).
Proof. reflexivity. Qed.

(** * Whole-program behaviour *)

(** ** Calls into DbgHelp *)

Section ServiceFacts.

Variable P : Platform.

Lemma proc_after_nil (p : option HANDLE) : proc_after P p [] = p.
Proof. destruct p; reflexivity. Qed.

Lemma resolve_events_nil (p : option HANDLE) : resolve_events p [] = [].
Proof. destruct p; reflexivity. Qed.

Lemma proc_after_app (p : option HANDLE) (c1 c2 : list (list ascii)) :
  proc_after P (proc_after P p c1) c2 = proc_after P p (c1 ++ c2).
Proof. destruct c1, c2, p; reflexivity. Qed.

Lemma resolve_events_app (p : option HANDLE) (c1 c2 : list (list ascii)) :
  resolve_events p c1 ++ resolve_events (proc_after P p c1) c2 =
  resolve_events p (c1 ++ c2).
Proof.
  destruct p as [h|]; simpl; [rewrite map_app; reflexivity|].
  destruct c1 as [|s1 c1]; simpl; [reflexivity|].
  rewrite map_app. reflexivity.
Qed.

Lemma service_calls_app (t1 t2 : list Event) :
  service_calls (t1 ++ t2) = service_calls t1 ++ service_calls t2.
Proof. apply filter_app. Qed.

Lemma service_calls_resolve_events (p : option HANDLE)
    (symbols : list (list ascii)) :
  service_calls (resolve_events p symbols) = resolve_events p symbols.
Proof.
  assert (H : forall l, service_calls (map undecorate_event l) =
                        map undecorate_event l).
  { unfold service_calls. induction l as [|s l IH]; simpl; [reflexivity|].
    f_equal. exact IH. }
  destruct p, symbols; try apply H.
  unfold resolve_events, service_calls. simpl. f_equal. f_equal. apply H.
Qed.

(** One [resolve] call, in terms of the handle. *)
Lemma resolve_proc (symbol : list ascii) (w : World) :
  exists w',
    resolve P symbol w = (resolves P symbol, w') /\
    proc_of w' = proc_after P (proc_of w) [symbol] /\
    trace w' = trace w ++ resolve_events (proc_of w) [symbol].
Proof.
  destruct (resolve_trace P symbol w) as (w' & h' & E & I & F & T).
  exists w'. split; [exact E|]. unfold proc_of. rewrite I, T. simpl.
  unfold init_handle. destruct (instance w); simpl; rewrite F; auto.
Qed.

(** The loop over the tokens calls [resolve] once for each token, in
    order, and does nothing else to the singleton or the trace. *)
Lemma for_each_token_calls (line : list ascii) (it : list (nat * nat)) :
  forall (prevPos : nat) (w : World),
  exists w',
    for_each_token P line it prevPos w = (last_pos it prevPos, w') /\
    proc_of w' = proc_after P (proc_of w) (map snd (pieces line it prevPos)) /\
    trace w' =
      trace w
      ++ resolve_events (proc_of w) (map snd (pieces line it prevPos)).
Proof.
  induction it as [|[a b] it IH]; intros prevPos w.
  - exists w. simpl. rewrite proc_after_nil, resolve_events_nil, app_nil_r.
    auto.
  - cbn [for_each_token pieces last_pos map snd].
    unfold bind at 1. cbn [put].
    set (w1 := mk_World _ _ _ (cout w ++ string_view line prevPos a) _ _).
    unfold bind at 1.
    destruct (resolve_proc (string_view line a b) w1) as (w2 & -> & I2 & T2).
    change (proc_of w1) with (proc_of w) in I2, T2.
    change (trace w1) with (trace w) in T2.
    set (rest := map snd (pieces line it b)).
    change (string_view line a b :: rest)
      with ([string_view line a b] ++ rest).
    rewrite <- proc_after_app, <- resolve_events_app, <- I2, app_assoc, <- T2.
    destruct (resolves P (string_view line a b)) as [undecorated|].
    + run_m. destruct (gKeepOldName w2);
        match goal with
        | |- context [for_each_token P line it b ?w3] =>
            destruct (IH b w3) as (w' & -> & I3 & T3)
        end; exists w'; auto.
    + destruct (IH b w2) as (w' & -> & I3 & T3). exists w'. auto.
Qed.

Lemma process_line_calls (line : list ascii) (w : World) :
  exists w',
    process_line P line w = (tt, w') /\
    cout w' = cout w ++ rewritten P (gKeepOldName w) line /\
    frame w w' /\
    proc_of w' = proc_after P (proc_of w) (candidates line) /\
    trace w' = trace w ++ resolve_events (proc_of w) (candidates line).
Proof.
  destruct (process_line_spec P line w) as (w' & E & C & F).
  exists w'. repeat split; try assumption; try apply F.
  - revert E. unfold process_line, candidates. unfold bind at 1.
    destruct (for_each_token_calls line (sregex_token_iterator line) 0 w)
      as (w1 & -> & I1 & T1).
    rewrite <- I1. run_m.
    destruct (_ =? _); intros E; injection E as <-; reflexivity.
  - revert E. unfold process_line, candidates. unfold bind at 1.
    destruct (for_each_token_calls line (sregex_token_iterator line) 0 w)
      as (w1 & -> & I1 & T1).
    rewrite <- T1. run_m.
    destruct (_ =? _); intros E; injection E as <-; reflexivity.
Qed.

End ServiceFacts.

(** ** Lines of standard input *)

Section LinesFacts.

Lemma split_lines_not_nil (s : list ascii) : split_lines s <> [].
Proof.
  induction s as [|c s IH]; simpl; [discriminate|].
  destruct (Ascii.eqb c LF); [discriminate|].
  destruct (split_lines s); [congruence|discriminate].
Qed.

(** What [std::getline] extracts is the first of the lines of the
    stream. *)
Lemma read_line_split_lines (s : list ascii) :
  match read_line s with
  | (l, Some rest) => split_lines s = l :: split_lines rest
  | (l, None) => split_lines s = [l]
  end.
Proof.
  induction s as [|c s IH]; simpl; [reflexivity|].
  destruct (Ascii.eqb c LF); [reflexivity|].
  destruct (read_line s) as [l [rest|]]; rewrite IH; reflexivity.
Qed.

Lemma join_split_lines (s : list ascii) : join_lines (split_lines s) = s.
Proof.
  induction s as [|c s IH]; simpl; [reflexivity|].
  destruct (Ascii.eqb c LF) eqn:E.
  - apply Ascii.eqb_eq in E. subst c.
    pose proof (split_lines_not_nil s) as N.
    simpl. destruct (split_lines s) as [|l ls]; [congruence|].
    rewrite IH. reflexivity.
  - pose proof (split_lines_not_nil s) as N.
    destruct (split_lines s) as [|l ls]; [congruence|].
    destruct ls; simpl in *; rewrite <- IH; reflexivity.
Qed.

Lemma split_lines_no_LF (s : list ascii) :
  Forall (fun l => ~ In LF l) (split_lines s).
Proof.
  induction s as [|c s IH]; simpl.
  - constructor; [tauto|constructor].
  - destruct (Ascii.eqb c LF) eqn:E.
    + constructor; [tauto|exact IH].
    + destruct (split_lines s) as [|l ls]; simpl.
      * constructor; [|constructor]. intros [H|[]]. subst c.
        rewrite Ascii.eqb_refl in E. discriminate.
      * inversion IH as [|l' ls' Hl Hls]; subst. constructor; [|exact Hls].
        intros [H|H]; [|tauto]. subst c.
        rewrite Ascii.eqb_refl in E. discriminate.
Qed.

(** One call of [getNextLine]: it hands out the first pending line, or
    nothing when none is pending, and leaves the rest of the state as
    it was. *)
Lemma getNextLine_pending (w : World) :
  exists r w',
    getNextLine w = (r, w') /\
    match r with
    | Some l => pending_lines w = l :: pending_lines w'
    | None => pending_lines w = [] /\ pending_lines w' = []
    end /\
    stdin_accesses (trace w') ++ match r with
                                 | Some _ => stdin_events w'
                                 | None => []
                                 end =
      stdin_accesses (trace w) ++ stdin_events w /\
    gKeepOldName w' = gKeepOldName w /\ cout w' = cout w /\
    proc_of w' = proc_of w /\
    service_calls (trace w') = service_calls (trace w).
Proof.
  unfold pending_lines, stdin_events, proc_of, service_calls, stdin_accesses.
  destruct (gInputStrings w) as [q|] eqn:E.
  - rewrite (getNextLine_queue w E).
    destruct q as [|front q]; do 2 eexists; (split; [reflexivity|]);
      simpl; rewrite ?E, ?app_nil_r; auto 10.
  - rewrite (getNextLine_stream w E). unfold pending_lines. 
    destruct (good (cin w)) eqn:G.
    + do 2 eexists. split; [reflexivity|]. simpl.
      rewrite !filter_app. simpl. rewrite !app_nil_r.
      unfold getline. rewrite G.
      pose proof (read_line_split_lines (buf (cin w))) as R.
      destruct (read_line (buf (cin w))) as [l [rest|]]; simpl.
      * replace (good _) with true by (symmetry; exact G).
        rewrite R, ?E. simpl. rewrite <- !app_assoc. simpl. auto 10.
      * rewrite R, ?E. simpl. rewrite <- !app_assoc. auto 10.
    + do 2 eexists. split; [reflexivity|]. simpl. rewrite ?G, ?E.
      rewrite !filter_app. simpl. rewrite !app_nil_r. auto 10.
Qed.

End LinesFacts.

(** ** The loop and the run, in full *)

Section FullRunFacts.

Variable P : Platform.

Lemma pending_lines_frame (w w' : World) :
  frame w w' ->
  pending_lines w' = pending_lines w /\ stdin_events w' = stdin_events w.
Proof.
  intros (_ & Hq & Hc & _). unfold stdin_events, pending_lines.
  rewrite Hq, Hc. auto.
Qed.

(** The loop of [main] rewrites the pending lines in order, calls
    [resolve] for their candidates in order, and makes the accesses to
    standard input that [stdin_events] lists. *)
Lemma main_loop_full (fuel : nat) :
  forall w : World,
    lines_left w < fuel ->
    exists w',
      main_loop P fuel w = (true, w') /\
      cout w' =
        cout w
        ++ concat (map (rewritten P (gKeepOldName w)) (pending_lines w)) /\
      proc_of w' =
        proc_after P (proc_of w)
          (concat (map candidates (pending_lines w))) /\
      service_calls (trace w') =
        service_calls (trace w)
        ++ resolve_events (proc_of w)
             (concat (map candidates (pending_lines w))) /\
      stdin_accesses (trace w') = stdin_accesses (trace w) ++ stdin_events w.
Proof.
  induction fuel as [|fuel IH]; intros w H; [lia|].
  cbn [main_loop]. unfold bind at 1.
  pose proof (getNextLine_progress w) as Hp.
  destruct (getNextLine_pending w)
    as (r & w1 & E & Hl & Hs & K1 & C1 & I1 & T1).
  rewrite E in Hp |- *. destruct r as [l|].
  - unfold bind.
    destruct (process_line_calls P l w1) as (w2 & -> & C2 & F2 & I2 & T2).
    destruct (pending_lines_frame F2) as (L2 & S2).
    destruct (IH w2) as (w' & -> & C3 & I3 & T3 & S3).
    { rewrite (lines_left_frame F2). lia. }
    exists w'. split; [reflexivity|].
    destruct F2 as (K2 & _ & _ & A2 & _).
    rewrite C3, I3, T3, S3, L2, S2, K2, C2, I2, A2, T2, Hl, K1, C1, I1.
    simpl. rewrite <- proc_after_app, <- (resolve_events_app P).
    rewrite service_calls_app, service_calls_resolve_events, T1.
    rewrite <- !app_assoc. auto.
  - destruct Hl as [Hl _]. exists w1. rewrite Hl. simpl.
    rewrite proc_after_nil, resolve_events_nil, !app_nil_r in *.
    rewrite C1, I1, T1, Hs. auto.
Qed.

Lemma at_exit_calls (w : World) :
  exists w',
    at_exit w = (tt, w') /\
    cout w' = cout w /\ cin w' = cin w /\
    stdin_accesses (trace w') = stdin_accesses (trace w) /\
    service_calls (trace w') =
      service_calls (trace w) ++ exit_events (proc_of w).
Proof.
  unfold at_exit, SymbolHandler_dtor, stdin_accesses, service_calls,
    exit_events, proc_of.
  run_m. destruct (instance w) as [h|]; simpl;
    [destruct (fProc h =? 0)%Z|];
    eexists; (split; [reflexivity|]); simpl;
    rewrite ?filter_app; simpl; rewrite ?app_nil_r; auto.
Qed.

(** A run without a help flag. *)
Lemma run_full (argv : list (list ascii)) (stdin : list ascii) :
  existsb is_help (tl argv) = false ->
  let keep := existsb is_keep (tl argv) in
  let lines := input_lines argv stdin in
  let symbols := concat (map candidates lines) in
  fst (run P argv stdin) = Some 0%Z /\
  stdout_of (run P argv stdin) = concat (map (rewritten P keep) lines) /\
  service_calls (trace (snd (run P argv stdin))) =
    resolve_events None symbols
    ++ exit_events (proc_after P None symbols) /\
  stdin_accesses (trace (snd (run P argv stdin))) =
    match literals (tl argv) with
    | [] => concat (map (fun _ => [EvCinGood; EvCinGetline]) lines)
            ++ [EvCinGood]
    | _ :: _ => []
    end.
Proof.
  intros Hh keep lines symbols. subst keep lines symbols.
  unfold stdout_of, input_lines. rewrite run_unfold. unfold processArgs.
  destruct (processArgs_loop_spec (tl argv) (start stdin))
    as (w1 & -> & K & Q & C & I & T & O).
  rewrite Hh in *. cbn [negb]. rewrite (no_help_before_help _ Hh) in K, Q.
  simpl in K, Q, C, I, T, O.
  assert (Hb : lines_left w1 < loop_bound w1).
  { unfold lines_left, loop_bound.
    destruct (gInputStrings w1); [lia|destruct (good (cin w1)); lia]. }
  destruct (main_loop_full w1 Hb) as (w2 & -> & C2 & I2 & T2 & S2).
  destruct (at_exit_calls w2) as (w3 & -> & C3 & _ & S3 & T3).
  cbn [fst snd]. rewrite C3, S3, T3, C2, I2, T2, S2, K, O, T.
  assert (Hp : proc_of w1 = None) by (unfold proc_of; rewrite I; reflexivity).
  rewrite Hp.
  assert (Hl : pending_lines w1 =
               match literals (tl argv) with
               | [] => split_lines stdin
               | _ :: _ => literals (tl argv)
               end).
  { unfold pending_lines. rewrite Q, C.
    destruct (literals (tl argv)); reflexivity. }
  unfold stdin_events. rewrite Hl, Q. simpl.
  destruct (literals (tl argv)); auto.
Qed.

End FullRunFacts.

(** * Further properties of the program *)

(** ** The scanner as [main] uses it *)

Lemma sregex_tokens_long (line : list ascii) (fuel pos : nat) :
  pos <= length line ->
  Forall (fun t => fst t + 2 <= snd t) (sregex_tokens fuel line pos).
Proof.
  revert pos. induction fuel as [|fuel IH]; intros pos Hpos; simpl;
    [constructor|].
  destruct (regex_search (skipn pos line) pos) as [[first second]|] eqn:E;
    [|constructor].
  apply regex_search_in_line in E as (H1 & H2 & H3 & _); [|exact Hpos].
  constructor; [exact H2|apply IH; exact H3].
Qed.

(** X1. The spans that the loop of [main] walks through lie inside the
    line, from left to right and without overlap, and each is at least
    two bytes long: every [std::string_view] the loop builds has its
    first iterator at or before its last, and both within the line. *)
Theorem tokens_within_line (line : list ascii) :
  ordered (sregex_token_iterator line) 0 (length line) /\
  Forall (fun t => fst t + 2 <= snd t) (sregex_token_iterator line) /\
  last_pos (sregex_token_iterator line) 0 <= length line.
Proof.
  unfold sregex_token_iterator.
  pose proof (@sregex_tokens_ordered line (length line) 0 (Nat.le_0_l _)) as O.
  split; [exact O|]. split; [apply sregex_tokens_long; lia|].
  revert O. generalize (sregex_tokens (length line) line 0). generalize 0.
  intros n l. revert n. induction l as [|[a b] l IH]; simpl; intros n H.
  - exact H.
  - apply IH. tauto.
Qed.

Lemma Matches_c_str (m : list ascii) :
  Matches DECORATED_SYMBOL_PATTERN m -> c_str m = m.
Proof.
  intros H. apply Matches_pattern in H as (run & -> & _ & Hall).
  simpl. f_equal. induction run as [|c run IH]; simpl; [reflexivity|].
  simpl in Hall. apply andb_prop in Hall as [Hc Hr].
  destruct (Ascii.eqb c NUL) eqn:E.
  - apply Ascii.eqb_eq in E. subst c. discriminate Hc.
  - f_equal. apply IH. exact Hr.
Qed.

Lemma candidates_Matches (line : list ascii) :
  Forall (Matches DECORATED_SYMBOL_PATTERN) (candidates line).
Proof.
  unfold candidates. destruct (scanner_spec line) as (_ & H & _).
  apply Forall_map. eapply Forall_impl; [|exact H]. intros gm [_ Hm]. exact Hm.
Qed.

(** X2. Every candidate that [main] hands to [UndecorateSymbol] is a
    question mark followed by one or more characters of the class, so
    it holds no NUL byte and the C string that
    [UnDecorateSymbolName] receives is the whole candidate. *)
Theorem candidates_reach_DbgHelp_whole (line : list ascii) :
  Forall (fun m =>
            Matches DECORATED_SYMBOL_PATTERN m /\
            undecorate_event m = EvUnDecorateSymbolName m)
         (candidates line).
Proof.
  eapply Forall_impl; [|apply candidates_Matches].
  intros m H. split; [exact H|]. unfold undecorate_event.
  rewrite (Matches_c_str H). reflexivity.
Qed.

(** ** Rewriting with a resolver that changes nothing *)

Lemma skipn_no_NUL (n : nat) (s : list ascii) :
  ~ In NUL s -> ~ In NUL (skipn n s).
Proof.
  intros H Hn. apply H. rewrite <- (firstn_skipn n s).
  apply in_or_app. right. exact Hn.
Qed.

(** X3. In replace mode, when the resolver answers each candidate of a
    line with the candidate itself and the line holds no NUL byte,
    the output is the line and the line terminator. *)
Theorem unchanged_names_leave_line_unchanged
    (P : Platform) (line : list ascii) (w : World) :
  Forall (fun m => resolves P m = Some m) (candidates line) ->
  ~ In NUL line ->
  gKeepOldName w = false ->
  cout (snd (process_line P line w)) = cout w ++ line ++ [LF].
Proof.
  intros Hr Hn Hk. rewrite process_line_cout, Hk. unfold rewritten.
  destruct (scanner_spec line) as (Hc & _ & _).
  assert (Ht : ~ In NUL (trailing line))
    by (unfold trailing; apply skipn_no_NUL; exact Hn).
  rewrite (c_str_id _ Ht).
  assert (He : forall ps,
             Forall (fun m => resolves P m = Some m) (map snd ps) ->
             concat (map (fun gm => fst gm ++ emit P false (snd gm)) ps) =
             concat (map (fun gm : list ascii * list ascii =>
                            fst gm ++ snd gm) ps)).
  { induction ps as [|[g m] ps IH]; simpl; intros H; [reflexivity|].
    inversion H as [|m' ms Hm Hms]; subst.
    unfold emit at 1. rewrite Hm, IH by exact Hms. reflexivity. }
  rewrite (He _ Hr), (app_assoc _ (trailing line)), <- Hc. reflexivity.
Qed.

Lemma unchanged_names_leave_line_unchanged_witness :
  cout (snd (process_line echo_platform (str "call ?foo@@YAXXZ done")
               (start []))) =
  str "call ?foo@@YAXXZ done" ++ [LF].
Proof.
  apply (@unchanged_names_leave_line_unchanged echo_platform
           (str "call ?foo@@YAXXZ done") (start [])).
  - repeat constructor.
  - simpl. intros H. repeat (destruct H as [H|H]; [discriminate H|]). exact H.
  - reflexivity.
Defined.

(** ** Runs *)


(** X5. A help flag among the arguments short-circuits the run: the
    help text is all that is written, the exit code is 0, standard
    input is not touched, DbgHelp is not called and the singleton is
    never constructed, whatever else the arguments hold. *)
Theorem help_flag_short_circuits
    (P : Platform) (argv : list (list ascii)) (stdin : list ascii) :
  existsb is_help (tl argv) = true ->
  fst (run P argv stdin) = Some 0%Z /\
  stdout_of (run P argv stdin) = help_output /\
  trace (snd (run P argv stdin)) = [] /\
  cin (snd (run P argv stdin)) = cin (start stdin) /\
  instance (snd (run P argv stdin)) = None.
Proof.
  intros Hh. unfold stdout_of. rewrite run_unfold. unfold processArgs.
  destruct (processArgs_loop_spec (tl argv) (start stdin))
    as (w1 & -> & _ & _ & C & I & T & O).
  rewrite Hh in *. cbn [negb fst snd].
  unfold at_exit. run_m. rewrite I. simpl. rewrite O, T, C. auto.
Qed.

Lemma help_flag_short_circuits_witness :
  stdout_of (run demo_platform
               [str "msvcfilt"; str "?foo@@YAXXZ"; str "--help"]
               (str "unread")) = help_output /\
  trace (snd (run demo_platform
                [str "msvcfilt"; str "?foo@@YAXXZ"; str "--help"]
                (str "unread"))) = [].
Proof.
  destruct (@help_flag_short_circuits demo_platform
              [str "msvcfilt"; str "?foo@@YAXXZ"; str "--help"]
              (str "unread") eq_refl) as (_ & H1 & H2 & _).
  split; [exact H1|exact H2].
Defined.

(** X6. Without a help flag and with literal strings among the
    arguments, the output is the rewriting of each literal string, in
    the order given, each on a line of its own; a keep flag applies to
    all of them wherever it stands among the arguments, and the
    contents of standard input do not matter. *)
Theorem literal_strings_are_rewritten_in_order
    (P : Platform) (argv : list (list ascii)) (stdin : list ascii) :
  existsb is_help (tl argv) = false ->
  literals (tl argv) <> [] ->
  stdout_of (run P argv stdin) =
  concat (map (rewritten P (existsb is_keep (tl argv))) (literals (tl argv))).
Proof.
  intros Hh Hl. destruct (run_full P argv stdin Hh) as (_ & -> & _).
  unfold input_lines. destruct (literals (tl argv)); [congruence|reflexivity].
Qed.

Lemma literal_strings_are_rewritten_in_order_witness :
  stdout_of (run demo_platform
               [str "msvcfilt"; str "a ?foo@@YAXXZ"; str "b"; str "-keep"]
               (str "unread")) =
  str "a ?foo@@YAXXZ " ++ [DQUOTE] ++ str "void foo(void)" ++ [DQUOTE]
    ++ [LF] ++ str "b" ++ [LF].
Proof.
  rewrite (@literal_strings_are_rewritten_in_order demo_platform
             [str "msvcfilt"; str "a ?foo@@YAXXZ"; str "b"; str "-keep"]
             (str "unread") eq_refl).
  - reflexivity.
  - discriminate.
Defined.



Lemma split_lines_head (s l : list ascii) (ls : list (list ascii)) :
  split_lines s = l :: ls -> exists suf, s = l ++ suf.
Proof.
  revert l ls. induction s as [|c s IH]; simpl; intros l ls H.
  - injection H as <- _. exists []. reflexivity.
  - destruct (Ascii.eqb c LF).
    + injection H as <- _. exists (c :: s). reflexivity.
    + destruct (split_lines s) as [|l0 ls0] eqn:E.
      * injection H as <- _. exists s. reflexivity.
      * injection H as <- _. destruct (IH l0 ls0 eq_refl) as [suf ->].
        exists suf. reflexivity.
Qed.

Lemma split_lines_substring (s l : list ascii) :
  In l (split_lines s) -> exists pre suf, s = pre ++ l ++ suf.
Proof.
  revert l. induction s as [|c s IH]; simpl; intros l H.
  - destruct H as [<-|[]]. exists [], []. reflexivity.
  - destruct (Ascii.eqb c LF).
    + destruct H as [<-|H].
      * exists [], (c :: s). reflexivity.
      * destruct (IH l H) as (pre & suf & ->). exists (c :: pre), suf.
        reflexivity.
    + destruct (split_lines s) as [|l0 ls0] eqn:E.
      * destruct H as [<-|[]]. exists [], s. reflexivity.
      * destruct H as [<-|H].
        -- destruct (split_lines_head s E) as [suf ->].
           exists [], suf. reflexivity.
        -- destruct (IH l (or_intror H)) as (pre & suf & ->).
           exists (c :: pre), suf. reflexivity.
Qed.

Lemma no_candidate_substring (s pre l suf : list ascii) :
  no_candidate s -> s = pre ++ l ++ suf -> no_candidate l.
Proof.
  intros H -> p m q ->. apply (H (pre ++ p) m (q ++ suf)).
  rewrite <- !app_assoc. reflexivity.
Qed.

Lemma concat_split_lines (s : list ascii) :
  concat (map (fun l => l ++ [LF]) (split_lines s)) = s ++ [LF].
Proof.
  induction s as [|c s IH]; simpl; [reflexivity|].
  destruct (Ascii.eqb c LF) eqn:E.
  - apply Ascii.eqb_eq in E. subst c. simpl. rewrite IH. reflexivity.
  - destruct (split_lines s) as [|l0 ls0]; simpl in *.
    + destruct s; discriminate IH.
    + rewrite <- IH. reflexivity.
Qed.

(** X8. When standard input holds no candidate and no NUL byte, and
    the arguments hold neither a help flag nor a literal string, the
    output is standard input followed by one line feed, whatever
    DbgHelp is and with or without a keep flag. *)
Theorem plain_stdin_is_copied
    (P : Platform) (argv : list (list ascii)) (stdin : list ascii) :
  existsb is_help (tl argv) = false ->
  literals (tl argv) = [] ->
  no_candidate stdin ->
  ~ In NUL stdin ->
  stdout_of (run P argv stdin) = stdin ++ [LF].
Proof.
  intros Hh Hl Hc Hn. destruct (run_full P argv stdin Hh) as (_ & -> & _).
  unfold input_lines. rewrite Hl, <- concat_split_lines. f_equal.
  apply map_ext_in. intros l Hin.
  destruct (split_lines_substring stdin l Hin) as (pre & suf & E).
  rewrite rewritten_no_candidate
    by (eapply no_candidate_substring; [exact Hc|exact E]).
  rewrite c_str_id; [reflexivity|].
  intros H. apply Hn. rewrite E. apply in_or_app. right.
  apply in_or_app. left. exact H.
Qed.

Lemma no_candidate_two_lines :
  no_candidate (str "no symbols" ++ [LF] ++ str "here?" ++ [LF]).
Proof. refine (proj1 (regex_search_None _ 0) _). reflexivity. Qed.

Lemma plain_stdin_is_copied_witness :
  stdout_of (run demo_platform [str "msvcfilt"; str "-keep"]
               (str "no symbols" ++ [LF] ++ str "here?" ++ [LF])) =
  (str "no symbols" ++ [LF] ++ str "here?" ++ [LF]) ++ [LF].
Proof.
  apply (@plain_stdin_is_copied demo_platform [str "msvcfilt"; str "-keep"]
           (str "no symbols" ++ [LF] ++ str "here?" ++ [LF])
           eq_refl eq_refl no_candidate_two_lines).
  simpl. intros H. repeat (destruct H as [H|H]; [discriminate H|]). exact H.
Defined.






(** ** The input source, call by call *)

Lemma getNextLine_exhausted (w : World) :
  pending_lines w = [] ->
  exists w', getNextLine w = (None, w') /\ pending_lines w' = [].
Proof.
  intros H. destruct (getNextLine_pending w) as (r & w' & E & Hl & _).
  destruct r as [l|]; [congruence|]. exists w'. tauto.
Qed.

Lemma next_lines_exhausted (n : nat) :
  forall w : World,
    pending_lines w = [] -> fst (next_lines n w) = repeat None n.
Proof.
  induction n as [|n IH]; intros w H; [reflexivity|].
  simpl. unfold bind. destruct (getNextLine_exhausted w H) as (w' & -> & H').
  specialize (IH w' H'). destruct (next_lines n w') as [rs w''].
  simpl in IH |- *. rewrite IH. reflexivity.
Qed.

(** X11. The end of the input is final: once [getNextLine] has
    returned nothing, every later call returns nothing too, over a
    queue as over standard input. *)
Theorem end_of_input_is_final (w : World) (n : nat) :
  fst (getNextLine w) = None ->
  fst (next_lines n (snd (getNextLine w))) = repeat None n.
Proof.
  intros H. destruct (getNextLine_pending w) as (r & w' & E & Hl & _).
  rewrite E in H |- *. simpl in H. subst r. apply next_lines_exhausted.
  tauto.
Qed.

Lemma end_of_input_is_final_witness :
  fst (next_lines 3 (snd (getNextLine (snd (getNextLine (start [])))))) =
  [None; None; None].
Proof.
  apply (@end_of_input_is_final (snd (getNextLine (start []))) 3).
  reflexivity.
Defined.

Lemma next_lines_pending (k : nat) (ls : list (list ascii)) :
  forall w : World,
    pending_lines w = ls ->
    fst (next_lines (length ls + k) w) = map Some ls ++ repeat None k.
Proof.
  induction ls as [|l ls IH]; intros w H.
  - apply next_lines_exhausted. exact H.
  - simpl. unfold bind.
    destruct (getNextLine_pending w) as (r & w' & -> & Hl & _).
    destruct r as [l'|]; [|destruct Hl; congruence].
    rewrite H in Hl. injection Hl as <- Hl.
    specialize (IH w' (eq_sym Hl)).
    destruct (next_lines (length ls + k) w') as [rs w''].
    simpl in IH |- *. rewrite IH. reflexivity.
Qed.

(** X12. Standard input is handed out without loss: the successive
    calls of [getNextLine] return the lines between the line feeds of
    standard input, in order, and then nothing; none of these lines
    holds a line feed, and joined by line feeds they are standard
    input again. *)
Theorem stdin_is_handed_out_whole (stdin : list ascii) (k : nat) :
  fst (next_lines (length (split_lines stdin) + k) (start stdin)) =
    map Some (split_lines stdin) ++ repeat None k /\
  Forall (fun l => ~ In LF l) (split_lines stdin) /\
  join_lines (split_lines stdin) = stdin.
Proof.
  split; [|split; [apply split_lines_no_LF|apply join_split_lines]].
  apply next_lines_pending. reflexivity.
Qed.

(** ** The command line, argument by argument *)

Lemma processArgs_loop_app (a b : list (list ascii)) :
  forall w : World,
    existsb is_help a = false ->
    processArgs_loop (a ++ b) w =
    processArgs_loop b (snd (processArgs_loop a w)).
Proof.
  induction a as [|arg a IH]; intros w H; [reflexivity|].
  simpl in H. apply orb_false_iff in H as [Hh Ha].
  cbn [app processArgs_loop]. rewrite Hh.
  destruct (is_keep arg).
  - unfold bind. simpl. apply IH. exact Ha.
  - run_m. destruct (gInputStrings w); simpl; apply IH; exact Ha.
Qed.

(** X13. Arguments are handled one after the other: as long as no
    help flag is among the first ones, handling a command line is
    handling its first arguments and then, from the state so reached,
    the arguments that follow. *)
Theorem processArgs_composes
    (prog : list ascii) (a b : list (list ascii)) (w : World) :
  existsb is_help a = false ->
  processArgs (prog :: a ++ b) w =
  processArgs (prog :: b) (snd (processArgs (prog :: a) w)).
Proof. intros H. unfold processArgs. simpl. apply processArgs_loop_app, H. Qed.

Lemma processArgs_composes_witness :
  processArgs ([str "msvcfilt"; str "a"; str "-keep"; str "b"]) (start []) =
  processArgs [str "msvcfilt"; str "-keep"; str "b"]
    (snd (processArgs [str "msvcfilt"; str "a"] (start []))).
Proof.
  apply (@processArgs_composes (str "msvcfilt") [str "a"]
           [str "-keep"; str "b"] (start []) eq_refl).
Defined.
